(** * soundscope: the array transforms of the audio preprocessing core

    A shallow embedding of [soundscope/util/reverse.py],
    [soundscope/util/trim.py] and [subpackages/util/split.py], together
    with the part of NumPy those functions call, and of the two [dsp]
    transforms ([midside], [normalize]) that the unit tests exercise.

    - Python values that a function may return in place of an array
      ([None], a message string) are constructors of the function's result
      type; a raised exception is [Raise] with the exception's class name;
      [print] appends to a console log.
    - A NumPy array is a one-dimensional [Arr1] or a two-dimensional [Arr2]
      (time-major: one row per frame).
    - A double is a [spec_float] at precision 53 and maximal exponent 1024,
      with the IEEE-754 operations of [SpecFloat]. *)

From Stdlib Require Import String.
From Stdlib Require Import List ZArith Lia Bool Arith Permutation.
From Stdlib Require Import Floats.SpecFloat.
From Stdlib Require Import QArith Qabs.
Import ListNotations.

Set Implicit Arguments.

Local Open Scope string_scope.
Local Open Scope Z_scope.

(** ** Python outcomes *)

Module Py.

(** What a call evaluates to: a value, or a raised exception identified
    by the name of its class. *)
Inductive outcome (A : Type) : Type :=
| Return (a : A)
| Raise (exc : string).

Arguments Return {A} a.
Arguments Raise {A} exc.

Definition bind {A B : Type} (c : outcome A) (k : A -> outcome B) : outcome B :=
  match c with
  | Return a => k a
  | Raise e => Raise e
  end.

(** The lines [print] has written so far. *)
Definition console := list string.

(** [seq[start:stop]] on a sequence: negative bounds count from the end,
    and both bounds are clamped to the sequence. *)
Definition slice_bound (n i : Z) : Z :=
  if i <? 0 then Z.max (i + n) 0 else Z.min i n.

Definition getslice {A : Type} (l : list A) (start stop : Z) : list A :=
  let n := Z.of_nat (length l) in
  let s := slice_bound n start in
  let e := slice_bound n stop in
  if s <? e then firstn (Z.to_nat (e - s)) (skipn (Z.to_nat s) l) else [].

End Py.

Import Py.

Declare Scope py_scope.
Delimit Scope py_scope with py.
Notation "x <- c ;; k" := (bind c (fun x => k))
  (at level 61, c at next level, right associativity) : py_scope.
Local Open Scope py_scope.

(** ** The NumPy arrays and functions the transforms use *)

Module Np.

Section Arrays.
Context {A : Type}.

(** [Arr1 xs] has shape [(len xs,)]; [Arr2 c rows] has shape
    [(len rows, c)]. *)
Inductive ndarray : Type :=
| Arr1 (xs : list A)
| Arr2 (ncols : nat) (rows : list (list A)).

(** Every row of a two-dimensional array has [ncols] entries. *)
Definition rectangular (a : ndarray) : Prop :=
  match a with
  | Arr1 _ => True
  | Arr2 c rows => Forall (fun r => length r = c) rows
  end.

(** [len(array)], which is [array.shape[0]]. *)
Definition len (a : ndarray) : nat :=
  match a with
  | Arr1 xs => length xs
  | Arr2 _ rows => length rows
  end.

(** [array.size]. *)
Definition size (a : ndarray) : nat :=
  match a with
  | Arr1 xs => length xs
  | Arr2 c rows => (length rows * c)%nat
  end.

(** [array[start:stop]], a slice along the first axis. *)
Definition slice0 (a : ndarray) (start stop : Z) : ndarray :=
  match a with
  | Arr1 xs => Arr1 (getslice xs start stop)
  | Arr2 c rows => Arr2 c (getslice rows start stop)
  end.

(** [array[:, start:stop]], the same slice of every row. *)
Definition slice1 (start stop : Z) (r : list A) : list A := getslice r start stop.

(** The division points of [np.array_split] for [k] equal sections of
    [each] entries, and the sub-sequences between consecutive points. *)
Definition sections_of {B : Type} (l : list B) (k each : nat) : list (list B) :=
  map (fun i => getslice l (Z.of_nat (i * each)) (Z.of_nat ((i + 1) * each)))
      (seq 0 k).

(** [np.split(ary, sections)] along axis 0. [N % sections] is computed
    first; [array_split] then rejects a non-positive section count. *)
Definition np_split (a : ndarray) (sections : Z) : outcome (list ndarray) :=
  let N := Z.of_nat (len a) in
  if sections =? 0 then Raise "ZeroDivisionError"
  else if negb (N mod sections =? 0) then Raise "ValueError"
  else if sections <=? 0 then Raise "ValueError"
  else
    let k := Z.to_nat sections in
    let each := Z.to_nat (N / sections) in
    Return match a with
           | Arr1 xs => map Arr1 (sections_of xs k each)
           | Arr2 c rows => map (Arr2 c) (sections_of rows k each)
           end.

(** [np.split(ary, sections, axis=1)] of a two-dimensional array. *)
Definition np_split_columns (c : nat) (rows : list (list A)) (sections : Z)
  : outcome (list ndarray) :=
  let N := Z.of_nat c in
  if sections =? 0 then Raise "ZeroDivisionError"
  else if negb (N mod sections =? 0) then Raise "ValueError"
  else if sections <=? 0 then Raise "ValueError"
  else
    let k := Z.to_nat sections in
    let each := Z.to_nat (N / sections) in
    Return (map (fun i =>
                   Arr2 each
                        (map (slice1 (Z.of_nat (i * each)) (Z.of_nat ((i + 1) * each)))
                             rows))
                (seq 0 k)).

(** [np.hsplit]: along axis 1 when the array has more than one dimension,
    along axis 0 otherwise. *)
Definition np_hsplit (a : ndarray) (sections : Z) : outcome (list ndarray) :=
  match a with
  | Arr1 _ => np_split a sections
  | Arr2 c rows => np_split_columns c rows sections
  end.

(** [np.flip(a, axis=0)]. *)
Definition flip0 (a : ndarray) : ndarray :=
  match a with
  | Arr1 xs => Arr1 (rev xs)
  | Arr2 c rows => Arr2 c (rev rows)
  end.

(** [np.flip(subarrays, axis=1)] on the list [np.split] returned: the list
    is read as one array with a leading axis that runs over the
    sub-arrays, so axis 1 is the first axis of each sub-array. *)
Definition np_flip_axis1 (subarrays : list ndarray) : list ndarray :=
  map flip0 subarrays.

(** [np.atleast_2d], as rows. *)
Definition rows_2d (a : ndarray) : list (list A) :=
  match a with
  | Arr1 xs => [xs]
  | Arr2 _ rows => rows
  end.

Definition ncols_2d (a : ndarray) : nat :=
  match a with
  | Arr1 xs => length xs
  | Arr2 c _ => c
  end.

(** [np.row_stack], an alias of [np.vstack]: every item is made
    two-dimensional and the items are concatenated along axis 0. *)
Definition np_row_stack (items : list ndarray) : outcome ndarray :=
  match items with
  | [] => Raise "ValueError"
  | a :: _ => Return (Arr2 (ncols_2d a) (flat_map rows_2d items))
  end.

(** [array.ravel()] in row-major order. *)
Definition ravel (a : ndarray) : list A :=
  match a with
  | Arr1 xs => xs
  | Arr2 _ rows => concat rows
  end.

(** [array.reshape(n)] to one dimension. *)
Definition reshape1 (a : ndarray) (n : nat) : outcome ndarray :=
  if (length (ravel a) =? n)%nat then Return (Arr1 (ravel a)) else Raise "ValueError".

(** Column [j] of a list of rows. *)
Definition column (rows : list (list A)) (j : nat) : list A :=
  flat_map (fun r => match nth_error r j with Some v => [v] | None => [] end) rows.

Definition columns (c : nat) (rows : list (list A)) : list (list A) :=
  map (column rows) (seq 0 c).

(** [array.flatten(order='F')]: column-major order. *)
Definition flatten_F (a : ndarray) : list A :=
  match a with
  | Arr1 xs => xs
  | Arr2 c rows => concat (columns c rows)
  end.

End Arrays.

Arguments ndarray A : clear implicits.

(** An elementwise operation. *)
Definition amap {A B : Type} (f : A -> B) (a : ndarray A) : ndarray B :=
  match a with
  | Arr1 xs => Arr1 (map f xs)
  | Arr2 c rows => Arr2 c (map (map f) rows)
  end.

(** *** Reductions along an axis *)

Section Reductions.
Context {B : Type}.

(** Axis [axis] of an array of the given number of dimensions, negative
    axes counting from the last one. *)
Definition normalize_axis (ndim axis : Z) : outcome Z :=
  if (axis <? - ndim) || (ndim <=? axis) then Raise "AxisError"
  else Return (if axis <? 0 then axis + ndim else axis).

Definition ndim (a : ndarray B) : Z :=
  match a with Arr1 _ => 1 | Arr2 _ _ => 2 end.

(** The one-dimensional lanes a reduction along [axis] runs over, one per
    entry of the result. The result of reducing a one-dimensional array
    is a single entry. *)
Definition lanes (a : ndarray B) (axis : Z) : outcome (list (list B)) :=
  ax <- normalize_axis (ndim a) axis ;;
  Return match a with
         | Arr1 xs => [xs]
         | Arr2 c rows => if ax =? 0 then columns c rows else rows
         end.

(** [array.shape[axis]]: indexing the shape tuple. *)
Definition shape (a : ndarray B) (axis : Z) : outcome nat :=
  match a with
  | Arr1 xs =>
      if (axis =? 0) || (axis =? -1) then Return (length xs) else Raise "IndexError"
  | Arr2 c rows =>
      if (axis =? 0) || (axis =? -2) then Return (length rows)
      else if (axis =? 1) || (axis =? -1) then Return c
      else Raise "IndexError"
  end.

(** [np.flip(m, axis)]. *)
Definition np_flip (a : ndarray B) (axis : Z) : outcome (ndarray B) :=
  ax <- normalize_axis (ndim a) axis ;;
  Return match a with
         | Arr1 xs => Arr1 (rev xs)
         | Arr2 c rows => if ax =? 0 then Arr2 c (rev rows) else Arr2 c (map (@rev B) rows)
         end.

End Reductions.

(** [mask.any(axis)]. *)
Definition np_any (m : ndarray bool) (axis : Z) : outcome (list bool) :=
  ls <- lanes m axis ;;
  Return (map (existsb (fun b => b)) ls).

(** The index of the first entry of a lane equal to [b]. *)
Fixpoint index_of (b : bool) (l : list bool) : nat :=
  match l with
  | [] => 0
  | x :: t => if Bool.eqb x b then 0 else S (index_of b t)
  end.

(** [argmax] of a boolean lane: the first index at which the maximum of
    the lane is attained. *)
Definition argmax_lane (l : list bool) : Z :=
  Z.of_nat (index_of (existsb (fun b => b) l) l).

(** [mask.argmax(axis)]; a reduction over an empty axis has no maximum. *)
Definition np_argmax (m : ndarray bool) (axis : Z) : outcome (list Z) :=
  ls <- lanes m axis ;;
  n <- shape m axis ;;
  if (n =? 0)%nat then Raise "ValueError" else Return (map argmax_lane ls).

(** [np.where(cond, x, y)] with an array [x] of the shape of [cond] and a
    scalar [y]. *)
Definition np_where (cond : list bool) (x : list Z) (y : Z) : list Z :=
  map (fun cv : bool * Z => if fst cv then snd cv else y) (combine cond x).

(** [np.amin] and [np.amax] over all entries. *)
Definition np_amin (l : list Z) : outcome Z :=
  match l with
  | [] => Raise "ValueError"
  | x :: t => Return (fold_left Z.min t x)
  end.

Definition np_amax (l : list Z) : outcome Z :=
  match l with
  | [] => Raise "ValueError"
  | x :: t => Return (fold_left Z.max t x)
  end.

(** [seq[i]] for a list. *)
Definition getitem {B : Type} (l : list B) (i : nat) : outcome B :=
  match nth_error l i with
  | Some v => Return v
  | None => Raise "IndexError"
  end.

End Np.

Import Np.

(** ** [soundscope/util/reverse.py] *)

Section Reverse.
Context {A : Type}.

(** [reverse(array, channels, subdivision)]: the console output and the
    returned value, [None] when the function falls off its end. *)
Definition reverse (array : ndarray A) (channels : string) (subdivision : Z)
  : console * outcome (option (ndarray A)) :=
  if subdivision =? 0 then ([], Raise "ZeroDivisionError")
  else if negb (Z.of_nat (len array) mod subdivision =? 0) then
    (["Error: array size not divisible by subdivision."], Return None)
  else
    ([], parts <- np_split array subdivision ;;
         rev_array <- np_row_stack (np_flip_axis1 parts) ;;
         if (channels =? "1")%string then
           flat <- reshape1 rev_array (size array) ;;
           Return (Some flat)
         else Return (Some rev_array)).

End Reverse.

(** ** The data model: sample arrays *)

(** A sample array and its channel tag as the file reader hands them over:
    a flat array tagged ['1'], or an array of two-sample frames tagged
    ['2']. *)
Inductive SampleArray {A : Type} : ndarray A -> string -> Prop :=
| Mono (xs : list A) : SampleArray (Arr1 xs) "1"
| Stereo (rows : list (list A)) :
    Forall (fun r => length r = 2%nat) rows -> SampleArray (Arr2 2 rows) "2".

(** The frames of an array in time order; a mono frame is one sample. *)
Definition frames {A : Type} (a : ndarray A) : list (list A) :=
  match a with
  | Arr1 xs => map (fun v => [v]) xs
  | Arr2 _ rows => rows
  end.

(** ** [subpackages/util/split.py] *)

Section Split.
Context {A : Type}.

(** What [split] returns: the message of the mono case, or the pair
    [left, right]. *)
Inductive split_value : Type :=
| Message (text : string)
| Channels (left right : ndarray A).

Definition split (array : ndarray A) (channels name : string) : outcome split_value :=
  if (channels =? "1")%string then
    Return (Message (name ++ " is mono, import 2 channel audio array for splitting."))
  else
    array_list <- np_hsplit array 2 ;;
    a0 <- getitem array_list 0 ;;
    a1 <- getitem array_list 1 ;;
    Return (Channels (Arr1 (flatten_F a0)) (Arr1 (flatten_F a1))).

End Split.

Arguments split_value A : clear implicits.

(** ** Doubles *)

Module F64.

Definition prec : Z := 53.
Definition emax : Z := 1024.

Definition float : Type := spec_float.

Definition add : float -> float -> float := SFadd prec emax.
Definition sub : float -> float -> float := SFsub prec emax.
Definition mul : float -> float -> float := SFmul prec emax.
Definition div : float -> float -> float := SFdiv prec emax.
Definition abs : float -> float := SFabs.
Definition eqb : float -> float -> bool := SFeqb.
Definition ltb : float -> float -> bool := SFltb.
(** [a > b]. *)
Definition gtb (a b : float) : bool := SFltb b a.

(** The double nearest to [m * 2^e]. *)
Definition ldexp (m e : Z) : float := binary_normalize prec emax m e false.
(** The conversion of a Python [int]. *)
Definition of_Z (m : Z) : float := ldexp m 0.

Definition one : float := of_Z 1.

(** [sys.float_info.epsilon]: the difference between 1.0 and the least
    double greater than 1.0. *)
Definition epsilon : float :=
  Eval vm_compute in sub (SFsucc prec emax one) one.

(** The least positive double, [5e-324]. *)
Definition min_positive : float :=
  Eval vm_compute in SFsucc prec emax (S754_zero false).

(** The least positive normal double, [sys.float_info.min]. *)
Definition min_normal : float := S754_finite false 4503599627370496 (-1074).

(** [np.maximum], which propagates a NaN operand. *)
Definition max (a b : float) : float :=
  match a, b with
  | S754_nan, _ => a
  | _, S754_nan => b
  | _, _ => if SFltb a b then b else a
  end.

(** The rational a double stands for; none for infinities and NaN. *)
Definition pow2 (e : Z) : Q :=
  match e with
  | Z0 => 1
  | Zpos p => inject_Z (Z.pow_pos 2 p)
  | Zneg p => 1 # (Pos.pow 2 p)
  end.

Definition to_Q (x : float) : option Q :=
  match x with
  | S754_zero _ => Some 0%Q
  | S754_finite s m e => Some ((if s then - inject_Z (Zpos m) else inject_Z (Zpos m)) * pow2 e)%Q
  | _ => None
  end.

(** A finite double: a zero or a finite number in canonical form. *)
Definition finite (x : float) : bool :=
  match x with
  | S754_zero _ => true
  | S754_finite _ m e => bounded prec emax m e
  | _ => false
  end.

(** The sign bit of a double that is not a NaN. *)
Definition sign_bit (x : float) : bool :=
  match x with
  | S754_zero s | S754_infinity s | S754_finite s _ _ => s
  | S754_nan => false
  end.

(** A double that is at most 1 in absolute value, by its exponent and
    mantissa. *)
Definition within_unit (x : float) : Prop :=
  match x with
  | S754_zero _ => True
  | S754_finite _ m e => e < -52 \/ (e = -52 /\ Zpos m <= 2 ^ 52)
  | _ => False
  end.

(** A mantissa and exponent that stand for a number of at most 1, below
    1 when the location says that something was cut off. *)
Definition unit_bound (q e : Z) (l : location) : Prop :=
  0 <= q /\ e <= -52 /\ q <= 2 ^ (- e) /\ (l <> loc_Exact -> q < 2 ^ (- e)).

(** A finite double with a clear sign bit. *)
Definition nonneg (x : float) : Prop := finite x = true /\ sign_bit x = false.

End F64.

(** ** [soundscope/util/trim.py] *)

(** [mask(array)]: [abs(array) > epsilon], elementwise. *)
Definition mask_value (v : F64.float) : bool := F64.gtb (F64.abs v) F64.epsilon.

Definition mask (array : ndarray F64.float) : ndarray bool := amap mask_value array.

(** [first_nonzero(array, axis, mask, invalid_val)]. *)
Definition first_nonzero (array : ndarray F64.float) (axis : Z) (mask : ndarray bool)
           (invalid_val : Z) : outcome (list Z) :=
  any <- np_any mask axis ;;
  arg <- np_argmax mask axis ;;
  Return (np_where any arg invalid_val).

(** [last_nonzero(array, axis, mask, invalid_val)]. *)
Definition last_nonzero (array : ndarray F64.float) (axis : Z) (mask : ndarray bool)
           (invalid_val : Z) : outcome (list Z) :=
  n <- shape array axis ;;
  flipped <- np_flip mask axis ;;
  arg <- np_argmax flipped axis ;;
  let dex_last_occur := map (fun i => Z.of_nat n - i - 1) arg in
  any <- np_any mask axis ;;
  Return (np_where any dex_last_occur invalid_val).

(** [trim(array)]; the copy of the slice is the slice itself. *)
Definition trim (array : ndarray F64.float) : outcome (ndarray F64.float) :=
  let mask1 := mask array in
  first <- first_nonzero array 0 mask1 (-1) ;;
  start <- np_amin first ;;
  last <- last_nonzero array 0 mask1 (-1) ;;
  stop <- np_amax last ;;
  Return (slice0 array start (stop + 1)).

(** ** The trimmed range as the specification words it

    The crop from the earliest frame in which some channel is non-silent
    through the latest such frame, inclusive; [trim] is compared with
    it. *)

(** A frame carries signal when one of its samples is non-silent. *)
Definition frame_active (f : list F64.float) : bool := existsb mask_value f.

Definition earliest_active (fs : list (list F64.float)) : Z :=
  Z.of_nat (index_of true (map frame_active fs)).

Definition latest_active (fs : list (list F64.float)) : Z :=
  Z.of_nat (length fs) - 1 - Z.of_nat (index_of true (rev (map frame_active fs))).

Definition trim_spec (array : ndarray F64.float) : ndarray F64.float :=
  slice0 array (earliest_active (frames array)) (latest_active (frames array) + 1).

(** The number of channels of an array. *)
Definition nchannels {B : Type} (array : ndarray B) : nat :=
  match array with Arr1 _ => 1 | Arr2 c _ => c end.

(** Channel [j] of a sample array carries signal somewhere. *)
Definition channel_active (array : ndarray F64.float) (j : nat) : Prop :=
  exists f v, In f (frames array) /\ nth_error f j = Some v /\ mask_value v = true.

(** Every channel of a sample array carries signal somewhere. *)
Definition every_channel_active (array : ndarray F64.float) : Prop :=
  forall j, (j < nchannels array)%nat -> channel_active array j.

(** The samples of channel [k] in time order. *)
Definition channel_samples {B : Type} (x : ndarray B) (k : nat) : list B :=
  match x with
  | Arr1 xs => xs
  | Arr2 _ rows => column rows k
  end.

(** [i] is the position of the first non-silent sample, or the marker
    [inv] when every sample is silent. *)
Definition first_signal (inv : Z) (samples : list F64.float) (i : Z) : Prop :=
  (Forall (fun v => mask_value v = false) samples /\ i = inv)
  \/ exists pre v post,
      samples = (pre ++ v :: post)%list
      /\ i = Z.of_nat (length pre)
      /\ mask_value v = true
      /\ Forall (fun w => mask_value w = false) pre.

(** [i] is the position of the last non-silent sample, or the marker
    [inv] when every sample is silent. *)
Definition last_signal (inv : Z) (samples : list F64.float) (i : Z) : Prop :=
  (Forall (fun v => mask_value v = false) samples /\ i = inv)
  \/ exists pre v post,
      samples = (pre ++ v :: post)%list
      /\ i = Z.of_nat (length pre)
      /\ mask_value v = true
      /\ Forall (fun w => mask_value w = false) post.

(** ** [util/invert.py] *)

(** [invert(array)]: [array * -1], elementwise on an array of doubles. *)
Definition invert (array : ndarray F64.float) : ndarray F64.float :=
  amap (fun v => F64.mul v (F64.of_Z (-1))) array.

(** ** Blocks of an array *)

(** [y] is a run of consecutive frames of [x], with the columns of [x]. *)
Definition is_block {B : Type} (y x : ndarray B) : Prop :=
  match x, y with
  | Arr1 xs, Arr1 ys => exists pre suf, xs = (pre ++ ys ++ suf)%list
  | Arr2 c rows, Arr2 c' rows' =>
      c' = c /\ exists pre suf, rows = (pre ++ rows' ++ suf)%list
  | _, _ => False
  end.

(** ** The [dsp] transforms

    [soundscope/dsp/midside.py] and [soundscope/dsp/normalize.py] are
    imported by the tests and by the plots; their definitions follow the
    specification, over samples with the arithmetic below. *)

Class SampleOps (T : Type) : Type := {
  s_zero : T;
  s_half : T;
  s_add : T -> T -> T;
  s_sub : T -> T -> T;
  s_mul : T -> T -> T;
  s_div : T -> T -> T;
  s_abs : T -> T;
  s_max : T -> T -> T;
  s_eqb : T -> T -> bool
}.

(** Doubles, with IEEE-754 rounding. *)
#[export] Instance F64_ops : SampleOps F64.float := {
  s_zero := F64.of_Z 0;
  s_half := F64.ldexp 1 (-1);
  s_add := F64.add;
  s_sub := F64.sub;
  s_mul := F64.mul;
  s_div := F64.div;
  s_abs := F64.abs;
  s_max := F64.max;
  s_eqb := F64.eqb
}.

Section Dsp.
Context {T : Type} `{SampleOps T}.

(** Modelled from the spec: [soundscope/dsp/midside.py] is missing. A
    stereo array is a sequence of (left, right) frames; encoding maps a
    frame to [mid = 0.5*(L+R)], [side = 0.5*(L-R)]. *)
Definition encode_frame (f : T * T) : T * T :=
  let (L, R) := f in (s_mul s_half (s_add L R), s_mul s_half (s_sub L R)).

(** Modelled from the spec: [soundscope/dsp/midside.py] is missing.
    Decoding maps a (mid, side) frame to [(mid+side, mid-side)]. *)
Definition decode_frame (f : T * T) : T * T :=
  let (mid, side) := f in (s_add mid side, s_sub mid side).

(** Modelled from the spec: [soundscope/dsp/midside.py] is missing. One
    operation with a direction flag: [code = true] encodes, [code = false]
    decodes. *)
Definition midside (array : list (T * T)) (code : bool) : list (T * T) :=
  if code then map encode_frame array else map decode_frame array.

Definition encode (array : list (T * T)) : list (T * T) := midside array true.
Definition decode (array : list (T * T)) : list (T * T) := midside array false.

(** Modelled from the spec: [soundscope/dsp/normalize.py] is missing.
    [peak = max(|sample|)] over all samples of the flattened array. *)
Definition peak (array : ndarray T) : T :=
  fold_right s_max s_zero (map s_abs (ravel array)).

(** Modelled from the spec: [soundscope/dsp/normalize.py] is missing. The
    array is returned unchanged with [applied = false] when the peak is
    zero, and divided by the peak with [applied = true] otherwise. *)
Definition normalize (array : ndarray T) : ndarray T * bool :=
  let p := peak array in
  if s_eqb p s_zero then (array, false)
  else (amap (fun v => s_div v p) array, true).

End Dsp.


(** ** Sections of the time axis *)

(** [k] consecutive sections of [each] entries, by structural recursion. *)
Fixpoint chunks {B : Type} (each k : nat) (l : list B) : list (list B) :=
  match k with
  | O => []
  | S k' => firstn each l :: chunks each k' (skipn each l)
  end.

(** The sections of the time axis that [reverse x _ n] works on. *)
Definition segments {B : Type} (l : list B) (n : Z) : list (list B) :=
  chunks (Z.to_nat (Z.of_nat (length l) / n)) (Z.to_nat n) l.

(*DEFS-END*)

(** * Properties *)

Example reverse_ex1 :
  reverse (Arr1 [1; 2; 3; 4]) "1" 2 = ([], Return (Some (Arr1 [2; 1; 4; 3]))).
Proof. reflexivity. Qed.

Example reverse_ex2 :
  reverse (Arr2 2 [[1; 2]; [3; 4]; [5; 6]; [7; 8]]) "2" 2
  = ([], Return (Some (Arr2 2 [[3; 4]; [1; 2]; [7; 8]; [5; 6]]))).
Proof. reflexivity. Qed.

Example reverse_ex3 :
  reverse (Arr1 [1; 2; 3]) "1" 2
  = (["Error: array size not divisible by subdivision."], Return None).
Proof. reflexivity. Qed.

(** ** Slices and sections *)

Section SliceFacts.
Context {B : Type}.

Lemma getslice_nat (l : list B) (a b : nat) :
  (a <= b)%nat ->
  getslice l (Z.of_nat a) (Z.of_nat b) = firstn (b - a) (skipn a l).
Proof.
  intros Hab. unfold getslice, slice_bound.
  destruct (Z.ltb_spec (Z.of_nat a) 0) as [Hneg|_]; [lia|].
  destruct (Z.ltb_spec (Z.of_nat b) 0) as [Hneg|_]; [lia|].
  set (n := length l).
  destruct (Z.ltb_spec (Z.min (Z.of_nat a) (Z.of_nat n)) (Z.min (Z.of_nat b) (Z.of_nat n)))
    as [Hlt|Hge].
  - assert (Ha : (a < n)%nat) by lia.
    replace (Z.to_nat (Z.min (Z.of_nat a) (Z.of_nat n))) with a by lia.
    destruct (Nat.le_gt_cases b n) as [Hbn|Hbn].
    + f_equal. lia.
    + replace (Z.to_nat (Z.min (Z.of_nat b) (Z.of_nat n) - Z.min (Z.of_nat a) (Z.of_nat n)))
        with (n - a)%nat by lia.
      rewrite !firstn_all2; trivial; rewrite length_skipn; fold n; lia.
  - destruct (Nat.le_gt_cases n a) as [Hna|Hna].
    + rewrite skipn_all2 by (fold n; lia). now rewrite firstn_nil.
    + replace (b - a)%nat with 0%nat by lia. reflexivity.
Qed.

Lemma sections_of_firstn (l : list B) (k each : nat) :
  sections_of l k each = map (fun i => firstn each (skipn (i * each) l)) (seq 0 k).
Proof.
  unfold sections_of. apply map_ext. intros i.
  rewrite getslice_nat by lia. f_equal. lia.
Qed.

Lemma sections_of_chunks (l : list B) (k each : nat) :
  sections_of l k each = chunks each k l.
Proof.
  rewrite sections_of_firstn. revert l.
  induction k as [|k IH]; intros l; [reflexivity|].
  cbn [seq chunks map]. rewrite <- seq_shift, map_map. f_equal.
  rewrite <- IH. apply map_ext. intros i.
  rewrite skipn_skipn. do 2 f_equal. lia.
Qed.

Lemma chunks_length (each k : nat) (l : list B) : length (chunks each k l) = k.
Proof. revert l. induction k; intros; cbn; auto. Qed.

Lemma chunks_concat (each k : nat) (l : list B) :
  length l = (k * each)%nat -> concat (chunks each k l) = l.
Proof.
  revert l. induction k as [|k IH]; intros l Hl; cbn.
  - destruct l; [reflexivity|discriminate].
  - rewrite IH; [apply firstn_skipn|]. rewrite length_skipn. lia.
Qed.

Lemma chunks_each (each k : nat) (l : list B) :
  length l = (k * each)%nat -> Forall (fun s => length s = each) (chunks each k l).
Proof.
  revert l. induction k as [|k IH]; intros l Hl; cbn; constructor.
  - rewrite length_firstn. lia.
  - apply IH. rewrite length_skipn. lia.
Qed.

Lemma chunks_of_concat (each : nat) (segs : list (list B)) :
  Forall (fun s => length s = each) segs ->
  chunks each (length segs) (concat segs) = segs.
Proof.
  induction 1 as [|s segs Hs _ IH]; [reflexivity|].
  cbn. rewrite firstn_app, skipn_app, Hs, Nat.sub_diag, firstn_all2, skipn_all2 by lia.
  cbn. rewrite app_nil_r, IH. reflexivity.
Qed.

Lemma concat_length_each (each : nat) (segs : list (list B)) :
  Forall (fun s => length s = each) segs ->
  length (concat segs) = (length segs * each)%nat.
Proof.
  induction 1 as [|s segs Hs _ IH]; [reflexivity|].
  cbn. rewrite length_app. lia.
Qed.

End SliceFacts.

(** How many sections, and how long each is, when the guard of [np.split]
    passes. *)
Lemma sections_arith (N : nat) (n : Z) :
  0 < n -> Z.of_nat N mod n = 0 ->
  N = (Z.to_nat n * Z.to_nat (Z.of_nat N / n))%nat.
Proof.
  intros Hn Hmod.
  pose proof (Z.div_mod (Z.of_nat N) n ltac:(lia)) as Hdm.
  rewrite Hmod, Z.add_0_r in Hdm.
  assert (0 <= Z.of_nat N / n) by (apply Z.div_pos; lia).
  nia.
Qed.

(** ** What [reverse] computes *)

Section ReverseFacts.
Context {A : Type}.

Lemma segments_spec {B : Type} (l : list B) (n : Z) :
  0 < n -> Z.of_nat (length l) mod n = 0 ->
  length (segments l n) = Z.to_nat n /\
  Forall (fun s => length s = Z.to_nat (Z.of_nat (length l) / n)) (segments l n) /\
  concat (segments l n) = l.
Proof.
  intros Hn Hmod. pose proof (sections_arith (length l) Hn Hmod) as Hlen.
  unfold segments. split; [apply chunks_length|].
  split; [apply chunks_each | apply chunks_concat]; exact Hlen.
Qed.

Lemma reverse_guard (x : ndarray A) (ch : string) (n : Z) :
  0 < n -> Z.of_nat (len x) mod n = 0 ->
  reverse x ch n
  = ([], parts <- np_split x n ;;
         rev_array <- np_row_stack (np_flip_axis1 parts) ;;
         if (ch =? "1")%string then
           flat <- reshape1 rev_array (size x) ;; Return (Some flat)
         else Return (Some rev_array)).
Proof.
  intros Hn Hmod. unfold reverse.
  destruct (Z.eqb_spec n 0) as [->|_]; [lia|].
  rewrite Hmod. reflexivity.
Qed.

Lemma np_split_ok (x : ndarray A) (n : Z) :
  0 < n -> Z.of_nat (len x) mod n = 0 ->
  np_split x n
  = Return match x with
           | Arr1 xs => map Arr1 (segments xs n)
           | Arr2 c rows => map (Arr2 c) (segments rows n)
           end.
Proof.
  intros Hn Hmod. unfold np_split.
  destruct (Z.eqb_spec n 0) as [->|_]; [lia|].
  rewrite Hmod. cbn [Z.eqb negb].
  destruct (Z.leb_spec n 0) as [Hle|_]; [lia|].
  destruct x; cbn [len]; rewrite sections_of_chunks; reflexivity.
Qed.

Lemma row_stack_flat (segs : list (list A)) :
  segs <> [] ->
  np_row_stack (map Arr1 segs) = Return (Arr2 (length (hd [] segs)) segs).
Proof.
  destruct segs as [|s segs]; [congruence|]. intros _.
  cbn [map np_row_stack ncols_2d hd]. do 2 f_equal.
  rewrite flat_map_concat_map, <- map_cons, map_map. cbn [rows_2d].
  induction (s :: segs) as [|a l IH]; cbn; congruence.
Qed.

Lemma row_stack_rows (c : nat) (segs : list (list (list A))) :
  segs <> [] ->
  np_row_stack (map (Arr2 c) segs) = Return (Arr2 c (concat segs)).
Proof.
  destruct segs as [|s segs]; [congruence|]. intros _.
  cbn [map np_row_stack ncols_2d]. do 2 f_equal.
  rewrite flat_map_concat_map, <- map_cons, map_map. cbn [rows_2d].
  now rewrite map_id.
Qed.

Lemma segments_nonempty {B : Type} (f : list B -> list B) (l : list B) (n : Z) :
  0 < n -> map f (segments l n) <> [].
Proof.
  intros Hn Hnil. apply (f_equal (@length _)) in Hnil.
  unfold segments in Hnil. rewrite length_map, chunks_length in Hnil. cbn in Hnil. lia.
Qed.

Lemma length_concat_rev {B : Type} (segs : list (list B)) :
  length (concat (map (@rev _) segs)) = length (concat segs).
Proof.
  induction segs as [|a l IH]; cbn; [reflexivity|].
  now rewrite !length_app, length_rev, IH.
Qed.

Lemma reverse_mono (xs : list A) (n : Z) :
  0 < n -> Z.of_nat (length xs) mod n = 0 ->
  reverse (Arr1 xs) "1" n
  = ([], Return (Some (Arr1 (concat (map (@rev _) (segments xs n)))))).
Proof.
  intros Hn Hmod.
  rewrite reverse_guard, np_split_ok by assumption.
  destruct (segments_spec xs Hn Hmod) as (_ & _ & Hcat).
  cbn [bind]. unfold np_flip_axis1. rewrite map_map. cbn [flip0].
  rewrite <- (map_map (@rev _) Arr1), row_stack_flat by now apply segments_nonempty.
  cbn [bind String.eqb Ascii.eqb Bool.eqb]. unfold reshape1. cbn [ravel size].
  rewrite length_concat_rev, Hcat, Nat.eqb_refl. reflexivity.
Qed.

Lemma reverse_rows (c : nat) (rows : list (list A)) (ch : string) (n : Z) :
  ch <> "1" ->
  0 < n -> Z.of_nat (length rows) mod n = 0 ->
  reverse (Arr2 c rows) ch n
  = ([], Return (Some (Arr2 c (concat (map (@rev _) (segments rows n)))))).
Proof.
  intros Hch Hn Hmod.
  rewrite reverse_guard, np_split_ok by assumption.
  cbn [bind]. unfold np_flip_axis1. rewrite map_map. cbn [flip0].
  rewrite <- (map_map (@rev _) (Arr2 c)), row_stack_rows by now apply segments_nonempty.
  cbn [bind].
  destruct (String.eqb_spec ch "1") as [->|_]; [contradiction|reflexivity].
Qed.

End ReverseFacts.

(** ** [reverse] on sample arrays *)

Section ReverseSampleArrays.
Context {A : Type}.

Lemma chunks_map {B C : Type} (f : B -> C) (each k : nat) (l : list B) :
  chunks each k (map f l) = map (map f) (chunks each k l).
Proof.
  revert l. induction k as [|k IH]; intros l; [reflexivity|].
  cbn. now rewrite firstn_map, skipn_map, IH.
Qed.

Lemma segments_map {B C : Type} (f : B -> C) (l : list B) (n : Z) :
  segments (map f l) n = map (map f) (segments l n).
Proof. unfold segments. now rewrite length_map, chunks_map. Qed.

Lemma concat_rev_map {B C : Type} (f : B -> C) (segs : list (list B)) :
  concat (map (@rev _) (map (map f) segs)) = map f (concat (map (@rev _) segs)).
Proof.
  induction segs as [|s segs IH]; [reflexivity|].
  cbn. now rewrite map_app, map_rev, IH.
Qed.

Lemma Forall_concat_rev {B : Type} (P : B -> Prop) (segs : list (list B)) :
  Forall P (concat segs) -> Forall P (concat (map (@rev _) segs)).
Proof.
  induction segs as [|s segs IH]; cbn; [trivial|].
  rewrite !Forall_app. intros [Hs Hrest]. split; [now apply Forall_rev | auto].
Qed.

Lemma frames_length (x : ndarray A) : length (frames x) = len x.
Proof. destruct x; cbn; [apply length_map | reflexivity]. Qed.

Lemma frames_inj (x y : ndarray A) (ch : string) :
  SampleArray x ch -> SampleArray y ch -> frames x = frames y -> x = y.
Proof.
  intros Hx Hy. destruct Hx; inversion Hy; subst; cbn; intros Heq.
  - f_equal. clear Hy. revert xs0 Heq.
    induction xs as [|a xs IH]; intros [|b ys]; cbn; try congruence.
    intros Heq. injection Heq as -> Hrest. f_equal. auto.
  - now subst.
Qed.

(** On a sample array whose length the subdivision divides, [reverse]
    prints nothing and returns a sample array of the same kind, whose
    frames are those of the sections of the input, each section in
    reverse order. *)
Lemma reverse_frames (x : ndarray A) (ch : string) (n : Z) :
  SampleArray x ch -> 0 < n -> Z.of_nat (len x) mod n = 0 ->
  exists y : ndarray A,
    reverse x ch n = ([], Return (Some y)) /\
    SampleArray y ch /\
    frames y = concat (map (@rev _) (segments (frames x) n)).
Proof.
  intros Hx Hn Hmod. destruct Hx as [xs | rows Hrows]; cbn [len] in Hmod.
  - exists (Arr1 (concat (map (@rev _) (segments xs n)))).
    split; [now apply reverse_mono|]. split; [constructor|].
    cbn [frames]. now rewrite segments_map, concat_rev_map.
  - exists (Arr2 2 (concat (map (@rev _) (segments rows n)))).
    split; [apply reverse_rows; trivial; discriminate|].
    split; [|reflexivity]. constructor. apply Forall_concat_rev.
    destruct (segments_spec rows Hn Hmod) as (_ & _ & ->). exact Hrows.
Qed.

End ReverseSampleArrays.

(** C4. For a sample array (mono or stereo) and a positive subdivision
    that divides its length, [reverse] cuts the time axis into
    [subdivision] consecutive sections of equal length, reverses the order
    of the frames inside each section, leaves every frame as it is, and
    concatenates the sections in their original order. With subdivision 1,
    the default, the whole array is reversed, and
    [reverse([1,2,3,4], subdivision=2) == [2,1,4,3]]. *)
Theorem reverse_blockwise :
  (forall (A : Type) (x : ndarray A) (ch : string) (n : Z),
      SampleArray x ch -> 0 < n -> Z.of_nat (len x) mod n = 0 ->
      exists (segs : list (list (list A))) (y : ndarray A),
        length segs = Z.to_nat n /\
        Forall (fun s => Z.of_nat (length s) = Z.of_nat (len x) / n) segs /\
        concat segs = frames x /\
        reverse x ch n = ([], Return (Some y)) /\
        SampleArray y ch /\
        frames y = concat (map (@rev _) segs)) /\
  (forall (A : Type) (x : ndarray A) (ch : string),
      SampleArray x ch ->
      exists y : ndarray A,
        reverse x ch 1 = ([], Return (Some y)) /\
        SampleArray y ch /\
        frames y = rev (frames x)) /\
  reverse (Arr1 [1; 2; 3; 4]) "1" 2 = ([], Return (Some (Arr1 [2; 1; 4; 3]))).
Proof.
  split; [|split; [|reflexivity]].
  - intros A x ch n Hx Hn Hmod.
    destruct (reverse_frames Hx Hn Hmod) as (y & Hrun & Hy & Hframes).
    assert (Hmod' : Z.of_nat (length (frames x)) mod n = 0)
      by now rewrite frames_length.
    destruct (segments_spec (frames x) Hn Hmod') as (Hk & Heach & Hcat).
    exists (segments (frames x) n), y. repeat split; trivial.
    rewrite frames_length in Heach.
    eapply Forall_impl; [|exact Heach]. cbn. intros s ->.
    apply Z2Nat.id, Z.div_pos; lia.
  - intros A x ch Hx.
    assert (Hmod : Z.of_nat (len x) mod 1 = 0) by apply Z.mod_1_r.
    destruct (reverse_frames Hx Z.lt_0_1 Hmod) as (y & Hrun & Hy & Hframes).
    exists y. repeat split; trivial. rewrite Hframes.
    unfold segments. rewrite Z.div_1_r, Nat2Z.id.
    change (Z.to_nat 1) with 1%nat. cbn [chunks map concat].
    now rewrite firstn_all, app_nil_r.
Qed.

(** The array of the third scenario and a stereo array, cut in two. *)
Lemma reverse_blockwise_witness :
  (exists (segs : list (list (list Z))) (y : ndarray Z),
      length segs = Z.to_nat 2 /\
      Forall (fun s => Z.of_nat (length s)
                       = Z.of_nat (len (Arr2 2 [[1; 2]; [3; 4]; [5; 6]; [7; 8]])) / 2) segs /\
      concat segs = frames (Arr2 2 [[1; 2]; [3; 4]; [5; 6]; [7; 8]]) /\
      reverse (Arr2 2 [[1; 2]; [3; 4]; [5; 6]; [7; 8]]) "2" 2 = ([], Return (Some y)) /\
      SampleArray y "2" /\
      frames y = concat (map (@rev _) segs)) /\
  exists y : ndarray Z,
    reverse (Arr1 [1; 2; 3]) "1" 1 = ([], Return (Some y)) /\
    SampleArray y "1" /\
    frames y = rev (frames (Arr1 [1; 2; 3])).
Proof.
  split.
  - apply (proj1 reverse_blockwise).
    + constructor. repeat constructor.
    + lia.
    + reflexivity.
  - apply (proj1 (proj2 reverse_blockwise)). constructor.
Defined.

(** C5. For a sample array and a positive subdivision that divides its
    length, reversing twice with the same subdivision gives back the
    array: [reverse(reverse(x, n), n) == x]. *)
Theorem reverse_involution (A : Type) (x : ndarray A) (ch : string) (n : Z) :
  SampleArray x ch -> 0 < n -> Z.of_nat (len x) mod n = 0 ->
  exists y : ndarray A,
    reverse x ch n = ([], Return (Some y)) /\
    reverse y ch n = ([], Return (Some x)).
Proof.
  intros Hx Hn Hmod.
  destruct (reverse_frames Hx Hn Hmod) as (y & Hrun & Hy & Hframes).
  exists y. split; [exact Hrun|].
  assert (Hmod' : Z.of_nat (length (frames x)) mod n = 0)
    by now rewrite frames_length.
  destruct (segments_spec (frames x) Hn Hmod') as (Hk & Heach & Hcat).
  assert (Hleny : len y = len x).
  { rewrite <- !frames_length, Hframes, length_concat_rev, Hcat. reflexivity. }
  assert (Hmody : Z.of_nat (len y) mod n = 0) by now rewrite Hleny.
  destruct (reverse_frames Hy Hn Hmody) as (z & Hrun' & Hz & Hframes').
  rewrite Hrun'. do 3 f_equal. apply (frames_inj Hz Hx).
  rewrite Hframes'. unfold segments at 1.
  rewrite frames_length, Hleny, <- frames_length, Hframes.
  rewrite <- Hk, <- (length_map (@rev _) (segments (frames x) n)).
  rewrite chunks_of_concat.
  - rewrite map_map. rewrite (map_ext _ (fun s => s)) by apply rev_involutive.
    now rewrite map_id.
  - apply Forall_map. eapply Forall_impl; [|exact Heach].
    cbn. intros s Hs. now rewrite length_rev.
Qed.

Lemma reverse_involution_witness :
  exists y : ndarray Z,
    reverse (Arr1 [1; 2; 3; 4; 5; 6]) "1" 3 = ([], Return (Some y)) /\
    reverse y "1" 3 = ([], Return (Some (Arr1 [1; 2; 3; 4; 5; 6]))).
Proof.
  apply reverse_involution; [constructor | lia | reflexivity].
Defined.

(** ** [reverse] when the subdivision does not divide the length *)

(** C7, at [reverse([1,2,3], '1', 2)]: no exception named
    [InvalidSubdivision], nor any other, reaches the caller; the function
    prints a line and returns [None]. *)
Lemma reverse_indivisible_counterexample :
  reverse (Arr1 [1; 2; 3]) "1" 2
  = (["Error: array size not divisible by subdivision."], Return None)
  /\ snd (reverse (Arr1 [1; 2; 3]) "1" 2) <> Raise "InvalidSubdivision"
  /\ fst (reverse (Arr1 [1; 2; 3]) "1" 2) <> [].
Proof. repeat split; cbn; discriminate. Qed.

(** C7, amended. For every array and every positive subdivision that does
    not divide its length, [reverse] prints
    ["Error: array size not divisible by subdivision."] and returns [None];
    it raises no exception. *)
Theorem reverse_indivisible (A : Type) (x : ndarray A) (ch : string) (n : Z) :
  0 < n -> Z.of_nat (len x) mod n <> 0 ->
  reverse x ch n
  = (["Error: array size not divisible by subdivision."], Return None).
Proof.
  intros Hn Hmod. unfold reverse.
  destruct (Z.eqb_spec n 0) as [->|_]; [lia|].
  destruct (Z.eqb_spec (Z.of_nat (len x) mod n) 0) as [Heq|_]; [contradiction|].
  reflexivity.
Qed.

Lemma reverse_indivisible_witness :
  reverse (Arr2 2 [[1; 2]; [3; 4]; [5; 6]]) "2" 2
  = (["Error: array size not divisible by subdivision."], Return None).
Proof. apply reverse_indivisible; [lia | cbn; lia]. Defined.

(** ** [split] *)

Section SplitFacts.
Context {A : Type}.

Lemma column_of_slices (rows : list (list A)) (lo hi : Z) (f : list A -> list A) :
  Forall (fun r => match nth_error (slice1 lo hi r) 0 with
                   | Some v => [v]
                   | None => []
                   end = f r) rows ->
  column (map (slice1 lo hi) rows) 0 = flat_map f rows.
Proof.
  intros Hrows. unfold column.
  rewrite !flat_map_concat_map, map_map. f_equal.
  now apply map_ext_Forall.
Qed.

Lemma split_rows (rows : list (list A)) (ch name : string) :
  ch <> "1" ->
  Forall (fun r => length r = 2%nat) rows ->
  split (Arr2 2 rows) ch name
  = Return (Channels (Arr1 (flat_map (firstn 1) rows)) (Arr1 (flat_map (skipn 1) rows))).
Proof.
  intros Hch Hrows. unfold split.
  destruct (String.eqb_spec ch "1") as [->|_]; [contradiction|].
  assert (Hh : np_hsplit (Arr2 2 rows) 2
               = Return [Arr2 1 (map (slice1 0 1) rows); Arr2 1 (map (slice1 1 2) rows)])
    by reflexivity.
  rewrite Hh. cbn [bind getitem nth_error flatten_F columns seq map concat].
  rewrite !app_nil_r. do 2 f_equal; f_equal; apply column_of_slices.
  - eapply Forall_impl; [|exact Hrows].
    intros [|l [|r [|? ?]]]; try discriminate. reflexivity.
  - eapply Forall_impl; [|exact Hrows].
    intros [|l [|r [|? ?]]]; try discriminate. reflexivity.
Qed.

Lemma interleave_rows (rows : list (list A)) :
  Forall (fun r => length r = 2%nat) rows ->
  length (flat_map (firstn 1) rows) = length rows /\
  length (flat_map (skipn 1) rows) = length rows /\
  map (fun p : A * A => [fst p; snd p])
      (combine (flat_map (firstn 1) rows) (flat_map (skipn 1) rows)) = rows.
Proof.
  induction 1 as [|r rows Hr _ (IHl & IHr & IH)]; [repeat split|].
  destruct r as [|l [|r [|? ?]]]; try discriminate.
  change (flat_map (firstn 1) ([l; r] :: rows)) with (l :: flat_map (firstn 1) rows).
  change (flat_map (skipn 1) ([l; r] :: rows)) with (r :: flat_map (skipn 1) rows).
  cbn [length combine map fst snd]. rewrite IHl, IHr, IH. repeat split.
Qed.

End SplitFacts.

(** C6. For a stereo sample array [x] of [N] frames, [split] returns two
    mono arrays [L] and [R] of [N] samples each, in the time order of [x],
    and the frames [(L[i], R[i])] are the frames of [x]; in particular
    [split([[1,4],[2,5],[3,6]]) == ([1,2,3], [4,5,6])]. *)
Theorem split_deinterleaves :
  (forall (A : Type) (x : ndarray A) (name : string),
      SampleArray x "2" ->
      exists L R : list A,
        split x "2" name = Return (Channels (Arr1 L) (Arr1 R)) /\
        length L = len x /\
        length R = len x /\
        map (fun p : A * A => [fst p; snd p]) (combine L R) = frames x) /\
  (forall name : string,
      split (Arr2 2 [[1; 4]; [2; 5]; [3; 6]]) "2" name
      = Return (Channels (Arr1 [1; 2; 3]) (Arr1 [4; 5; 6]))).
Proof.
  split; [|reflexivity].
  intros A x name Hx. inversion Hx as [|rows Hrows]; subst.
  exists (flat_map (firstn 1) rows), (flat_map (skipn 1) rows).
  split; [apply split_rows; [discriminate | exact Hrows]|].
  apply interleave_rows, Hrows.
Qed.

Lemma split_deinterleaves_witness :
  exists L R : list Z,
    split (Arr2 2 [[7; 8]; [9; 10]]) "2" "tone.wav"
    = Return (Channels (Arr1 L) (Arr1 R)) /\
    length L = len (Arr2 2 [[7; 8]; [9; 10]]) /\
    length R = len (Arr2 2 [[7; 8]; [9; 10]]) /\
    map (fun p : Z * Z => [fst p; snd p]) (combine L R)
    = frames (Arr2 2 [[7; 8]; [9; 10]]).
Proof.
  apply (proj1 split_deinterleaves). constructor. repeat constructor.
Defined.

(** C8, at [split([1,2,3], '1', 'a.wav')]: the call raises nothing, and
    what it returns is a string. *)
Lemma split_mono_counterexample :
  split (Arr1 [1; 2; 3]) "1" "a.wav"
  = Return (Message "a.wav is mono, import 2 channel audio array for splitting.")
  /\ split (Arr1 [1; 2; 3]) "1" "a.wav" <> Raise "WrongChannelCount".
Proof. split; [reflexivity | discriminate]. Qed.

(** C8, amended. For every array tagged mono (['1']), [split] raises no
    exception: it returns the string
    ["<name> is mono, import 2 channel audio array for splitting."] in
    place of the two channel arrays. *)
Theorem split_mono_message (A : Type) (x : ndarray A) (name : string) :
  split x "1" name
  = Return (Message (name ++ " is mono, import 2 channel audio array for splitting.")).
Proof. reflexivity. Qed.

(** ** [trim]: the boundary indices *)

Section TrimFacts.

Abbreviation any_true := (existsb (fun b : bool => b)).

Lemma first_nonzero_mono (xs : list F64.float) (bs : list bool) (inv : Z) :
  bs <> [] ->
  first_nonzero (Arr1 xs) 0 (Arr1 bs) inv
  = Return [if any_true bs then argmax_lane bs else inv].
Proof. destruct bs; [congruence | reflexivity]. Qed.

Lemma last_nonzero_mono (xs : list F64.float) (bs : list bool) (inv : Z) :
  bs <> [] ->
  last_nonzero (Arr1 xs) 0 (Arr1 bs) inv
  = Return [if any_true bs
            then Z.of_nat (length xs) - argmax_lane (rev bs) - 1 else inv].
Proof.
  intros Hbs. unfold last_nonzero, np_argmax.
  cbn [shape np_flip normalize_axis ndim lanes bind Z.eqb Z.ltb Z.leb Z.compare
       Z.opp orb].
  rewrite length_rev.
  destruct bs; [congruence | reflexivity].
Qed.

Lemma first_nonzero_stereo (rows : list (list F64.float)) (bs : list (list bool))
      (inv : Z) :
  bs <> [] ->
  first_nonzero (Arr2 2 rows) 0 (Arr2 2 bs) inv
  = Return [if any_true (column bs 0) then argmax_lane (column bs 0) else inv;
            if any_true (column bs 1) then argmax_lane (column bs 1) else inv].
Proof. destruct bs; [congruence | reflexivity]. Qed.

Lemma last_nonzero_stereo (rows : list (list F64.float)) (bs : list (list bool))
      (inv : Z) :
  bs <> [] ->
  last_nonzero (Arr2 2 rows) 0 (Arr2 2 bs) inv
  = Return [if any_true (column bs 0)
            then Z.of_nat (length rows) - argmax_lane (column (rev bs) 0) - 1 else inv;
            if any_true (column bs 1)
            then Z.of_nat (length rows) - argmax_lane (column (rev bs) 1) - 1 else inv].
Proof.
  intros Hbs. unfold last_nonzero, np_argmax.
  cbn [shape np_flip normalize_axis ndim lanes bind Z.eqb Z.ltb Z.leb Z.compare
       Z.opp orb].
  rewrite length_rev.
  destruct bs; [congruence | reflexivity].
Qed.

(** A slice that starts at the sentinel and stops at 0 is empty. *)
Lemma getslice_sentinel {B : Type} (l : list B) : getslice l (-1) (-1 + 1) = [].
Proof.
  unfold getslice, slice_bound.
  change (-1 + 1) with 0. change (-1 <? 0) with true. change (0 <? 0) with false.
  cbv iota.
  destruct (Z.ltb_spec (Z.max (-1 + Z.of_nat (length l)) 0) (Z.min 0 (Z.of_nat (length l))));
    [lia | reflexivity].
Qed.

Lemma any_true_silent (xs : list F64.float) :
  Forall (fun v => mask_value v = false) xs ->
  any_true (map mask_value xs) = false.
Proof.
  induction 1 as [|v xs Hv _ IH]; [reflexivity|]. cbn. now rewrite Hv, IH.
Qed.

Lemma any_true_silent_column (rows : list (list F64.float)) (j : nat) :
  Forall (Forall (fun v => mask_value v = false)) rows ->
  any_true (column (map (map mask_value) rows) j) = false.
Proof.
  induction 1 as [|r rows Hr _ IH]; [reflexivity|].
  unfold column in *. cbn [map flat_map]. rewrite existsb_app, IH, orb_false_r.
  rewrite nth_error_map.
  destruct (nth_error r j) as [v|] eqn:Hv; [|reflexivity].
  cbn. rewrite orb_false_r.
  apply nth_error_In in Hv. rewrite Forall_forall in Hr. auto.
Qed.

End TrimFacts.

(** C10, at the array with no frame: [argmax] has nothing to reduce over
    and [trim] raises [ValueError], for a mono and for a stereo array. *)
Lemma trim_all_silent_counterexample :
  Forall (fun v => mask_value v = false) (ravel (Arr1 (@nil F64.float)))
  /\ trim (Arr1 []) = Raise "ValueError"
  /\ trim (Arr2 2 []) = Raise "ValueError".
Proof. repeat split. constructor. Qed.

(** C10, amended. For every sample array with at least one frame in which
    every sample of every channel is silent, each first and each last
    boundary index is the sentinel -1, and [trim] returns the empty slice
    of the input. *)
Theorem trim_all_silent (array : ndarray F64.float) (ch : string) :
  SampleArray array ch ->
  (0 < len array)%nat ->
  Forall (fun v => mask_value v = false) (ravel array) ->
  exists (k : nat) (y : ndarray F64.float),
    first_nonzero array 0 (mask array) (-1) = Return (repeat (-1) k) /\
    last_nonzero array 0 (mask array) (-1) = Return (repeat (-1) k) /\
    (0 < k)%nat /\
    trim array = Return y /\
    SampleArray y ch /\
    frames y = [].
Proof.
  intros Harr Hlen Hsilent. destruct Harr as [xs | rows Hrows]; cbn [len ravel] in *.
  - assert (Hbs : map mask_value xs <> [])
      by (destruct xs; [cbn in Hlen; lia | discriminate]).
    exists 1%nat, (Arr1 []). unfold trim. cbn [mask amap].
    rewrite first_nonzero_mono, last_nonzero_mono by exact Hbs.
    rewrite any_true_silent by exact Hsilent.
    cbn [bind np_amin np_amax fold_left slice0 repeat].
    rewrite getslice_sentinel. repeat split; [lia | constructor].
  - assert (Hbs : map (map mask_value) rows <> [])
      by (destruct rows; [cbn in Hlen; lia | discriminate]).
    assert (Hall : Forall (Forall (fun v => mask_value v = false)) rows)
      by (clear - Hsilent; induction rows as [|r rows IH]; cbn in *;
          [constructor | apply Forall_app in Hsilent as [? ?]; constructor; auto]).
    exists 2%nat, (Arr2 2 []). unfold trim. cbn [mask amap].
    rewrite first_nonzero_stereo, last_nonzero_stereo by exact Hbs.
    rewrite !any_true_silent_column by exact Hall.
    cbn [bind np_amin np_amax fold_left slice0 repeat Z.min Z.max Z.compare].
    rewrite getslice_sentinel. repeat split; [lia | constructor; constructor].
Qed.

Lemma trim_all_silent_witness :
  exists (k : nat) (y : ndarray F64.float),
    first_nonzero (Arr2 2 [[F64.of_Z 0; F64.of_Z 0]; [F64.of_Z 0; F64.epsilon]]) 0
                  (mask (Arr2 2 [[F64.of_Z 0; F64.of_Z 0]; [F64.of_Z 0; F64.epsilon]])) (-1)
    = Return (repeat (-1) k) /\
    last_nonzero (Arr2 2 [[F64.of_Z 0; F64.of_Z 0]; [F64.of_Z 0; F64.epsilon]]) 0
                 (mask (Arr2 2 [[F64.of_Z 0; F64.of_Z 0]; [F64.of_Z 0; F64.epsilon]])) (-1)
    = Return (repeat (-1) k) /\
    (0 < k)%nat /\
    trim (Arr2 2 [[F64.of_Z 0; F64.of_Z 0]; [F64.of_Z 0; F64.epsilon]]) = Return y /\
    SampleArray y "2" /\
    frames y = [].
Proof.
  apply trim_all_silent.
  - constructor. repeat constructor.
  - cbn. lia.
  - repeat constructor.
Defined.

(** ** [trim] against the specified range *)

Section TrimRange.

Abbreviation any_true := (existsb (fun b : bool => b)).

Lemma index_of_true_any (bs : list bool) :
  any_true bs = true -> argmax_lane bs = Z.of_nat (index_of true bs).
Proof. unfold argmax_lane. now intros ->. Qed.

Lemma index_of_bound (bs : list bool) :
  any_true bs = true -> (index_of true bs < length bs)%nat.
Proof.
  induction bs as [|b bs IH]; [discriminate|].
  cbn. destruct b; cbn; [lia|]. intros H. apply IH in H. lia.
Qed.

Lemma any_true_rev (bs : list bool) : any_true (rev bs) = any_true bs.
Proof.
  induction bs as [|b bs IH]; [reflexivity|].
  cbn. rewrite existsb_app, IH. cbn. destruct b, (any_true bs); reflexivity.
Qed.

Lemma mono_frames_active (xs : list F64.float) :
  map frame_active (map (fun v => [v]) xs) = map mask_value xs.
Proof.
  rewrite map_map. apply map_ext. intros v. cbn. apply orb_false_r.
Qed.

(** The first active frame of a stereo array is the smaller of the first
    active indices of its two channels. *)
Lemma stereo_frames_active (rows : list (list F64.float)) :
  Forall (fun r => length r = 2%nat) rows ->
  index_of true (map frame_active rows)
  = Nat.min (index_of true (column (map (map mask_value) rows) 0))
            (index_of true (column (map (map mask_value) rows) 1)).
Proof.
  induction 1 as [|r rows Hr _ IH]; [reflexivity|].
  destruct r as [|l [|r [|? ?]]]; try discriminate.
  change (column (map (map mask_value) ([l; r] :: rows)) 0)
    with (mask_value l :: column (map (map mask_value) rows) 0).
  change (column (map (map mask_value) ([l; r] :: rows)) 1)
    with (mask_value r :: column (map (map mask_value) rows) 1).
  cbn [map frame_active existsb index_of].
  destruct (mask_value l), (mask_value r); cbn; try reflexivity.
  now rewrite IH.
Qed.

Lemma channel_active_mono (xs : list F64.float) :
  channel_active (Arr1 xs) 0 -> any_true (map mask_value xs) = true.
Proof.
  intros (f & v & Hin & Hnth & Hv). cbn [frames] in Hin.
  apply in_map_iff in Hin as (w & <- & Hw). cbn in Hnth. injection Hnth as ->.
  apply existsb_exists. exists true. split; [|reflexivity].
  rewrite <- Hv. now apply in_map.
Qed.

Lemma channel_active_column (rows : list (list F64.float)) (j : nat) :
  channel_active (Arr2 2 rows) j ->
  any_true (column (map (map mask_value) rows) j) = true.
Proof.
  intros (f & v & Hin & Hnth & Hv). cbn [frames] in Hin.
  apply existsb_exists. exists true. split; [|reflexivity].
  unfold column. apply in_flat_map. exists (map mask_value f).
  split; [now apply in_map|].
  rewrite nth_error_map, Hnth. cbn. now left.
Qed.

Lemma channel_active_rev (rows : list (list F64.float)) (j : nat) :
  channel_active (Arr2 2 rows) j -> channel_active (Arr2 2 (rev rows)) j.
Proof.
  intros (f & v & Hin & Hrest). exists f, v. split; [|exact Hrest].
  cbn [frames] in *. now apply in_rev in Hin.
Qed.

(** Where every channel carries signal, [trim] returns the specified
    crop. *)
Lemma trim_meets_spec (array : ndarray F64.float) (ch : string) :
  SampleArray array ch ->
  (forall j, (j < nchannels array)%nat -> channel_active array j) ->
  trim array = Return (trim_spec array).
Proof.
  intros Harr Hact. destruct Harr as [xs | rows Hrows]; cbn [nchannels] in Hact.
  - assert (Hany : any_true (map mask_value xs) = true)
      by (apply channel_active_mono, Hact; lia).
    assert (Hbs : map mask_value xs <> [])
      by (intros Hnil; rewrite Hnil in Hany; discriminate).
    unfold trim. cbn [mask amap].
    rewrite first_nonzero_mono, last_nonzero_mono by exact Hbs.
    rewrite Hany. cbn [bind np_amin np_amax fold_left].
    unfold trim_spec, earliest_active, latest_active. cbn [frames slice0].
    rewrite mono_frames_active, length_map.
    rewrite !index_of_true_any by (rewrite ?any_true_rev; exact Hany).
    do 3 f_equal. lia.
  - pose proof (channel_active_column (Hact 0%nat ltac:(lia))) as Hany0.
    pose proof (channel_active_column (Hact 1%nat ltac:(lia))) as Hany1.
    pose proof (channel_active_column (channel_active_rev (Hact 0%nat ltac:(lia))))
      as Hrev0.
    pose proof (channel_active_column (channel_active_rev (Hact 1%nat ltac:(lia))))
      as Hrev1.
    rewrite map_rev in Hrev0, Hrev1.
    assert (Hbs : map (map mask_value) rows <> [])
      by (intros Hnil; rewrite Hnil in Hany0; discriminate).
    unfold trim. cbn [mask amap].
    rewrite first_nonzero_stereo, last_nonzero_stereo by exact Hbs.
    rewrite Hany0, Hany1. cbn [bind np_amin np_amax fold_left].
    unfold trim_spec, earliest_active, latest_active. cbn [frames slice0].
    rewrite !index_of_true_any by assumption.
    rewrite <- (map_rev frame_active), <- (map_rev (map mask_value)).
    rewrite !stereo_frames_active by (try apply Forall_rev; exact Hrows).
    do 3 f_equal; lia.
Qed.

End TrimRange.

(** C1. On a stereo array one of whose channels is silent throughout, the
    sentinel of the silent channel is the start of the slice, which then
    counts from the end: of [[0,1],[0,1]] only the last frame is returned,
    and of [[0,1],[0,1],[0,0]] nothing, although the frames from the
    earliest to the latest one that carry signal are frames 0 to 1. *)
Theorem trim_silent_channel :
  first_nonzero (Arr2 2 [[F64.of_Z 0; F64.of_Z 1]; [F64.of_Z 0; F64.of_Z 1]]) 0
                (mask (Arr2 2 [[F64.of_Z 0; F64.of_Z 1]; [F64.of_Z 0; F64.of_Z 1]])) (-1)
  = Return [-1; 0]
  /\ trim (Arr2 2 [[F64.of_Z 0; F64.of_Z 1]; [F64.of_Z 0; F64.of_Z 1]])
     = Return (Arr2 2 [[F64.of_Z 0; F64.of_Z 1]])
  /\ trim_spec (Arr2 2 [[F64.of_Z 0; F64.of_Z 1]; [F64.of_Z 0; F64.of_Z 1]])
     = Arr2 2 [[F64.of_Z 0; F64.of_Z 1]; [F64.of_Z 0; F64.of_Z 1]]
  /\ trim (Arr2 2 [[F64.of_Z 0; F64.of_Z 1]; [F64.of_Z 0; F64.of_Z 1];
                   [F64.of_Z 0; F64.of_Z 0]])
     = Return (Arr2 2 [])
  /\ trim_spec (Arr2 2 [[F64.of_Z 0; F64.of_Z 1]; [F64.of_Z 0; F64.of_Z 1];
                        [F64.of_Z 0; F64.of_Z 0]])
     = Arr2 2 [[F64.of_Z 0; F64.of_Z 1]; [F64.of_Z 0; F64.of_Z 1]].
Proof. repeat split. Qed.

(** ** The silence threshold *)

Section Threshold.

Lemma digits2_pos_bounds (m : positive) :
  2 ^ (Zpos (digits2_pos m) - 1) <= Zpos m < 2 ^ Zpos (digits2_pos m).
Proof.
  induction m as [m IH | m IH |]; cbn [digits2_pos].
  - rewrite Pos2Z.inj_succ. replace (Z.succ (Zpos (digits2_pos m)) - 1)
      with (Z.succ (Zpos (digits2_pos m) - 1)) by lia.
    rewrite !Z.pow_succ_r by lia. lia.
  - rewrite Pos2Z.inj_succ. replace (Z.succ (Zpos (digits2_pos m)) - 1)
      with (Z.succ (Zpos (digits2_pos m) - 1)) by lia.
    rewrite !Z.pow_succ_r by lia. lia.
  - cbn. lia.
Qed.

(** A double that is not subnormal has a mantissa of 53 bits; every
    double has one of at most 53 bits and an exponent of at least -1074. *)
Lemma bounded_mantissa (m : positive) (e : Z) :
  bounded F64.prec F64.emax m e = true ->
  Zpos m < 2 ^ 53 /\ -1074 <= e /\ (-1074 < e -> 2 ^ 52 <= Zpos m).
Proof.
  unfold bounded, canonical_mantissa, fexp, emin, F64.prec, F64.emax.
  intros H. apply andb_prop in H as [Hcanon _]. apply Z.eqb_eq in Hcanon.
  pose proof (digits2_pos_bounds m) as [Hlo Hhi].
  set (d := Zpos (digits2_pos m)) in *.
  assert (Hd : d <= 53) by lia.
  split; [|split; [lia|]].
  - eapply Z.lt_le_trans; [exact Hhi|]. apply Z.pow_le_mono_r; lia.
  - intros He. assert (Hd53 : d = 53) by lia. rewrite Hd53 in Hlo. exact Hlo.
Qed.

Lemma pow2_neg (p : positive) : Zpos (2 ^ p) = 2 ^ Zpos p.
Proof. now rewrite Pos2Z.inj_pow. Qed.

Lemma Qabs_signed (s : bool) (m : positive) (q : Q) :
  (0 < q)%Q ->
  (Qabs ((if s then - inject_Z (Zpos m) else inject_Z (Zpos m)) * q)
   == inject_Z (Zpos m) * q)%Q.
Proof.
  intros Hq. rewrite Qabs_Qmult, (Qabs_pos q) by now apply Qlt_le_weak.
  destruct s; [rewrite Qabs_opp|]; now rewrite Qabs_pos by easy.
Qed.

Lemma pow2_pos (e : Z) : (0 < F64.pow2 e)%Q.
Proof.
  destruct e as [|p|p]; cbn; try reflexivity.
  unfold Qlt. cbn. rewrite Z.pow_pos_fold. lia.
Qed.

(** The mask of a finite double compares the rational it stands for with
    [2^-52]. *)
Lemma mask_value_finite (s : bool) (m : positive) (e : Z) :
  bounded F64.prec F64.emax m e = true ->
  mask_value (S754_finite s m e) = true
  <-> (1 # 4503599627370496
       < Qabs ((if s then - inject_Z (Zpos m) else inject_Z (Zpos m)) * F64.pow2 e))%Q.
Proof.
  intros Hb. destruct (bounded_mantissa _ _ Hb) as (Hm & He & Hnorm).
  rewrite (Qabs_signed s m (pow2_pos e)).
  unfold mask_value, F64.gtb, F64.abs, F64.epsilon, SFabs, SFltb, SFcompare.
  destruct e as [|p|p].
  - cbn. unfold Qlt. cbn. split; [lia | reflexivity].
  - change (-104 ?= Zpos p) with Lt. split; [intros _ | reflexivity].
    unfold Qlt. cbn [F64.pow2 Qmult Qnum Qden inject_Z]. rewrite Z.pow_pos_fold.
    assert (0 < 2 ^ Zpos p) by (apply Z.pow_pos_nonneg; lia).
    assert (0 < Zpos m * 2 ^ Zpos p) by (apply Z.mul_pos_pos; lia).
    lia.
  - unfold Qlt. cbn [F64.pow2 Qmult Qnum Qden inject_Z].
    rewrite Pos.mul_1_l, Z.mul_1_l, Z.mul_1_r, pow2_neg.
    change (Zpos 4503599627370496) with (2 ^ 52).
    destruct (Z.compare_spec (-104) (Zneg p)) as [Heq | Hlt | Hgt].
    + injection Heq as <-.
      change (2 ^ 104) with (2 ^ 52 * 2 ^ 52).
      rewrite Pos.compare_cont_spec. cbn [Pos.switch_Eq].
      rewrite <- Z.mul_lt_mono_pos_r by lia.
      change (2 ^ 52 < Zpos m) with ((4503599627370496 ?= m)%positive = Lt).
      destruct (4503599627370496 ?= m)%positive; cbv iota; split; intros Hx;
        try reflexivity; discriminate Hx.
    + split; [intros _ | reflexivity].
      assert (Hp : 2 ^ Zpos p <= 2 ^ 103) by (apply Z.pow_le_mono_r; lia).
      specialize (Hnorm ltac:(lia)).
      change (2 ^ 103) with (2 ^ 51 * 2 ^ 52) in Hp.
      assert (2 ^ 51 * 2 ^ 52 < Zpos m * 2 ^ 52) by (apply Z.mul_lt_mono_pos_r; lia).
      lia.
    + split; [discriminate | intros H; exfalso].
      assert (Hp : 2 ^ 105 <= 2 ^ Zpos p) by (apply Z.pow_le_mono_r; lia).
      change (2 ^ 105) with (2 ^ 53 * 2 ^ 52) in Hp.
      assert (Zpos m * 2 ^ 52 < 2 ^ 53 * 2 ^ 52) by (apply Z.mul_lt_mono_pos_r; lia).
      lia.
Qed.

End Threshold.

(** C9, at [v = 2^-60]: the sample is far above the least positive double
    (and above the least positive normal double), yet the mask classifies
    it as silent. *)
Lemma mask_threshold_counterexample :
  valid_binary F64.prec F64.emax (F64.ldexp 1 (-60)) = true
  /\ mask_value (F64.ldexp 1 (-60)) = false
  /\ F64.gtb (F64.abs (F64.ldexp 1 (-60))) F64.min_positive = true
  /\ F64.gtb (F64.abs (F64.ldexp 1 (-60))) F64.min_normal = true
  /\ F64.epsilon <> F64.min_positive.
Proof. repeat split. discriminate. Qed.

(** C9, amended. The threshold is the machine epsilon: the difference
    between 1.0 and the next double, which is [2^-52]. For every double
    [v], the mask is true exactly where [|v| > 2^-52]; an infinity is
    non-silent and a NaN is silent. *)
Theorem mask_threshold :
  F64.epsilon = F64.sub (SFsucc F64.prec F64.emax F64.one) F64.one
  /\ (exists q, F64.to_Q F64.epsilon = Some q /\ (q == 1 # 4503599627370496)%Q)
  /\ forall v : F64.float,
      valid_binary F64.prec F64.emax v = true ->
      mask_value v = true
      <-> match F64.to_Q v with
          | Some q => (1 # 4503599627370496 < Qabs q)%Q
          | None => v <> S754_nan
          end.
Proof.
  split; [reflexivity|]. split; [eexists; split; reflexivity|].
  intros [s | s | | s m e] Hvalid; cbn [F64.to_Q].
  - split; discriminate.
  - split; [discriminate | reflexivity].
  - split; [discriminate | congruence].
  - now apply mask_value_finite.
Qed.

Lemma mask_threshold_witness :
  mask_value (F64.ldexp 3 (-52)) = true
  <-> match F64.to_Q (F64.ldexp 3 (-52)) with
      | Some q => (1 # 4503599627370496 < Qabs q)%Q
      | None => F64.ldexp 3 (-52) <> S754_nan
      end.
Proof. apply (proj2 (proj2 mask_threshold)). reflexivity. Defined.

(** ** The mid/side codec *)


(** The sum of two large samples overflows before it is halved: the
    greatest double in both channels comes back as infinity. *)
Lemma midside_overflow :
  decode (encode [(S754_finite false 9007199254740991 971,
                   S754_finite false 9007199254740991 971)])
  = [(S754_infinity false, S754_infinity false)].
Proof. vm_compute. reflexivity. Qed.

(** ** Peak normalization *)

Lemma ravel_amap {B C : Type} (f : B -> C) (x : ndarray B) :
  ravel (amap f x) = map f (ravel x).
Proof. destruct x; cbn; [reflexivity | now rewrite concat_map]. Qed.

(** ** Division of doubles, for normalization *)

Section ShiftRight.

Lemma iter_pos_nat {X : Type} (f : X -> X) (p : positive) (x : X) :
  SpecFloat.iter_pos f p x = Nat.iter (Pos.to_nat p) f x.
Proof.
  revert x. induction p as [p IH | p IH |]; intros x; cbn [SpecFloat.iter_pos].
  - rewrite !IH, Pos2Nat.inj_xI.
    replace (S (2 * Pos.to_nat p)) with (Pos.to_nat p + (Pos.to_nat p + 1))%nat by lia.
    now rewrite !Nat.iter_add.
  - rewrite !IH, Pos2Nat.inj_xO.
    replace (2 * Pos.to_nat p)%nat with (Pos.to_nat p + Pos.to_nat p)%nat by lia.
    now rewrite Nat.iter_add.
  - reflexivity.
Qed.

Lemma shr_1_spec (m : Z) (r s : bool) :
  0 <= m ->
  shr_1 (Build_shr_record m r s) = Build_shr_record (m / 2) (Z.odd m) (r || s).
Proof.
  intros Hm. rewrite <- Z.div2_div.
  destruct m as [|[p|p|]|p]; try lia; reflexivity.
Qed.

(** [n] shifts divide the mantissa by [2^n]; nothing is lost when the
    record was exact and the mantissa is a multiple of [2^n]. *)
Lemma shr_iter_spec (n : nat) (m : Z) (r s : bool) :
  0 <= m ->
  exists r' s',
    Nat.iter n shr_1 (Build_shr_record m r s)
    = Build_shr_record (m / 2 ^ Z.of_nat n) r' s'
    /\ (r = false -> s = false -> m mod 2 ^ Z.of_nat n = 0 ->
        r' = false /\ s' = false).
Proof.
  intros Hm. induction n as [|n (r' & s' & Hrun & Hexact)].
  - exists r, s. cbn. rewrite Z.div_1_r. auto.
  - assert (Hpow : 0 < 2 ^ Z.of_nat n) by (apply Z.pow_pos_nonneg; lia).
    assert (Hsucc : 2 ^ Z.of_nat (S n) = 2 ^ Z.of_nat n * 2)
      by (rewrite Nat2Z.inj_succ, Z.pow_succ_r; lia).
    rewrite Nat.iter_succ, Hrun, shr_1_spec by (apply Z.div_pos; lia).
    rewrite Z.div_div, <- Hsucc by lia.
    do 2 eexists. split; [reflexivity|].
    intros Hr Hs Hmod. rewrite Hsucc in Hmod.
    apply Z.mod_divide in Hmod as [k Hk]; [|lia].
    assert (Hmk : m = k * 2 * 2 ^ Z.of_nat n) by lia.
    assert (Hmod' : m mod 2 ^ Z.of_nat n = 0)
      by (rewrite Hmk; apply Z.mod_mul; lia).
    destruct (Hexact Hr Hs Hmod') as [-> ->]. split; [|reflexivity].
    rewrite Hmk, Z.div_mul by lia. rewrite Z.mul_comm. apply Z.odd_even.
Qed.

End ShiftRight.

Section RoundBound.

Lemma Zdigits2_le (q k : Z) : 0 <= q -> 0 <= k -> q <= 2 ^ k -> Zdigits2 q <= k + 1.
Proof.
  intros Hq Hk Hqk. destruct q as [|p|p]; cbn [Zdigits2]; try lia.
  pose proof (digits2_pos_bounds p) as [Hlo _].
  destruct (Z.le_gt_cases (Zpos (digits2_pos p)) (k + 1)) as [|Hgt]; [trivial|].
  exfalso.
  assert (H2 : 2 ^ (k + 1) <= 2 ^ (Zpos (digits2_pos p) - 1))
    by (apply Z.pow_le_mono_r; lia).
  rewrite Z.pow_add_r in H2 by lia. change (2 ^ 1) with 2 in H2.
  assert (0 < 2 ^ k) by (apply Z.pow_pos_nonneg; lia). lia.
Qed.

Lemma shr_record_of_loc_spec (m : Z) (l : location) :
  exists r s,
    shr_record_of_loc m l = Build_shr_record m r s
    /\ loc_of_shr_record (Build_shr_record m r s) = l
    /\ (l = loc_Exact -> r = false /\ s = false).
Proof.
  destruct l as [|[| |]]; do 2 eexists; (split; [reflexivity|]);
    (split; [reflexivity|]); intros Hl; try discriminate; auto.
Qed.

(** [shr] shifts by [n] when [n] is positive and leaves the record as it
    is otherwise. *)
Lemma shr_spec (q e n : Z) (l : location) :
  0 <= q ->
  exists mrs,
    shr (shr_record_of_loc q l) e n = (mrs, e + Z.max n 0)
    /\ shr_m mrs = q / 2 ^ Z.max n 0
    /\ (n <= 0 -> loc_of_shr_record mrs = l)
    /\ (l = loc_Exact -> q mod 2 ^ Z.max n 0 = 0 -> loc_of_shr_record mrs = loc_Exact).
Proof.
  intros Hq.
  destruct (shr_record_of_loc_spec q l) as (r & s & Hrec & Hloc & Hexact).
  destruct n as [|p|p]; cbn [shr Z.max Z.compare].
  - exists (shr_record_of_loc q l). rewrite Z.add_0_r, Z.div_1_r.
    repeat split; rewrite Hrec; auto.
    intros Hl _. now rewrite <- Hl.
  - rewrite Hrec, iter_pos_nat.
    destruct (shr_iter_spec (Pos.to_nat p) r s Hq) as (r' & s' & Hrun & Hkeep).
    rewrite positive_nat_Z in Hrun, Hkeep. rewrite Hrun.
    eexists. split; [reflexivity|]. split; [reflexivity|]. split; [lia|].
    intros Hl Hmod. destruct (Hexact Hl) as [-> ->].
    now destruct (Hkeep eq_refl eq_refl Hmod) as [-> ->].
  - exists (shr_record_of_loc q l). rewrite Z.add_0_r, Z.div_1_r.
    repeat split; rewrite Hrec; auto.
    intros Hl _. now rewrite <- Hl.
Qed.

Lemma shr_fexp_unit_bound (q e : Z) (l : location) :
  F64.unit_bound q e l ->
  exists mrs e1,
    shr_fexp F64.prec F64.emax q e l = (mrs, e1)
    /\ F64.unit_bound (shr_m mrs) e1 (loc_of_shr_record mrs)
    /\ e1 <= F64.emax - F64.prec.
Proof.
  intros (Hq & He & Hle & Hlt). unfold shr_fexp.
  set (n := fexp F64.prec F64.emax (Zdigits2 q + e) - e).
  destruct (shr_spec e n l Hq) as (mrs & Hrun & Hm & Hsame & Hexact).
  exists mrs, (e + Z.max n 0). split; [exact Hrun|].
  pose proof (Zdigits2_le Hq (k := - e) ltac:(lia) Hle) as Hdig.
  assert (Hfexp : e + n <= -52)
    by (unfold n, fexp, emin, F64.prec, F64.emax; lia).
  unfold F64.emax, F64.prec. split; [|lia].
  destruct (Z.le_gt_cases n 0) as [Hn | Hn].
  - rewrite Hm. replace (Z.max n 0) with 0 by lia.
    rewrite Z.add_0_r, Z.div_1_r, (Hsame Hn). repeat split; trivial.
  - rewrite Hm. replace (Z.max n 0) with n in * by lia.
    assert (Hpow : 0 < 2 ^ n) by (apply Z.pow_pos_nonneg; lia).
    assert (Hsplit : 2 ^ (- e) = 2 ^ n * 2 ^ (- (e + n)))
      by (rewrite <- Z.pow_add_r by lia; f_equal; lia).
    repeat split.
    + apply Z.div_pos; lia.
    + exact Hfexp.
    + apply Z.div_le_upper_bound; lia.
    + intros Hinexact. apply Z.div_lt_upper_bound; [lia|].
      rewrite <- Hsplit.
      destruct (Z.eq_dec q (2 ^ (- e))) as [Heq | Hneq]; [|lia].
      destruct l as [|c]; [|apply Hlt; discriminate].
      exfalso. apply Hinexact, Hexact; [reflexivity|].
      rewrite Heq, Hsplit, Z.mul_comm. apply Z.mod_mul. lia.
Qed.

Lemma round_nearest_even_unit_bound (q e : Z) (l : location) :
  F64.unit_bound q e l -> F64.unit_bound (round_nearest_even q l) e loc_Exact.
Proof.
  intros (Hq & He & Hle & Hlt). unfold F64.unit_bound.
  assert (Hr : q <= round_nearest_even q l <= q + 1
               /\ (l = loc_Exact -> round_nearest_even q l = q)).
  { destruct l as [|[| |]]; cbn; try destruct (Z.even q); split; try lia; try discriminate;
      reflexivity. }
  destruct Hr as [Hr Hex]. repeat split; try lia; try congruence.
  destruct l as [|c]; [rewrite Hex; trivial|].
  assert (q < 2 ^ (- e)) by (apply Hlt; discriminate). lia.
Qed.

(** Rounding a number of at most 1 gives a double of at most 1, with the
    sign it was given. *)
Lemma binary_round_aux_unit (sx : bool) (q e : Z) (l : location) :
  F64.unit_bound q e l ->
  F64.within_unit (binary_round_aux F64.prec F64.emax sx q e l)
  /\ F64.sign_bit (binary_round_aux F64.prec F64.emax sx q e l) = sx.
Proof.
  intros Hb. unfold binary_round_aux.
  destruct (shr_fexp_unit_bound Hb) as (mrs1 & e1 & -> & Hb1 & _).
  apply round_nearest_even_unit_bound in Hb1.
  destruct (shr_fexp_unit_bound Hb1) as (mrs2 & e2 & -> & (Hq2 & He2 & Hle2 & _) & Hmax).
  destruct (shr_m mrs2) as [|m|m]; [cbn; auto | | lia].
  destruct (Z.leb_spec e2 (F64.emax - F64.prec)) as [_|]; [|lia].
  cbn [F64.within_unit F64.sign_bit]. split; [|reflexivity].
  destruct (Z.eq_dec e2 (-52)) as [-> | Hne]; [right; split; [reflexivity | exact Hle2] | lia].
Qed.

End RoundBound.

Section DivisionBound.

Lemma bounded_digits (m : positive) (e : Z) :
  bounded F64.prec F64.emax m e = true ->
  Zpos (digits2_pos m) <= 53 /\ -1074 <= e /\ (-1074 < e -> Zpos (digits2_pos m) = 53).
Proof.
  unfold bounded, canonical_mantissa, fexp, emin, F64.prec, F64.emax.
  intros H. apply andb_prop in H as [Hcanon _]. apply Z.eqb_eq in Hcanon. lia.
Qed.

Lemma digits2_pos_mono (m1 m2 : positive) :
  (m1 <= m2)%positive -> Zpos (digits2_pos m1) <= Zpos (digits2_pos m2).
Proof.
  intros Hle.
  pose proof (digits2_pos_bounds m1) as [Hlo1 _].
  pose proof (digits2_pos_bounds m2) as [_ Hhi2].
  destruct (Z.le_gt_cases (Zpos (digits2_pos m1)) (Zpos (digits2_pos m2))) as [|Hgt];
    [trivial|].
  exfalso.
  assert (2 ^ Zpos (digits2_pos m2) <= 2 ^ (Zpos (digits2_pos m1) - 1))
    by (apply Z.pow_le_mono_r; lia).
  lia.
Qed.

(** The order of two positive doubles is the order of their exponents,
    then of their mantissas. *)
Lemma leb_finite_iff (m1 m2 : positive) (e1 e2 : Z) :
  SFleb (S754_finite false m1 e1) (S754_finite false m2 e2) = true
  <-> e1 < e2 \/ (e1 = e2 /\ (m1 <= m2)%positive).
Proof.
  unfold SFleb, SFcompare. rewrite Pos.compare_cont_spec. cbn [Pos.switch_Eq].
  destruct (Z.compare_spec e1 e2) as [-> | Hlt | Hgt].
  - unfold Pos.le. destruct (m1 ?= m2)%positive; split; intros H; try discriminate;
      try reflexivity; try (right; split; [reflexivity | discriminate]).
    destruct H as [H | [_ H]]; [lia | congruence].
  - split; [intros _; now left | reflexivity].
  - split; [discriminate | lia].
Qed.

Lemma ltb_finite_iff (m1 m2 : positive) (e1 e2 : Z) :
  SFltb (S754_finite false m1 e1) (S754_finite false m2 e2) = true
  <-> e1 < e2 \/ (e1 = e2 /\ (m1 < m2)%positive).
Proof.
  unfold SFltb, SFcompare. rewrite Pos.compare_cont_spec. cbn [Pos.switch_Eq].
  destruct (Z.compare_spec e1 e2) as [-> | Hlt | Hgt].
  - unfold Pos.lt. destruct (m1 ?= m2)%positive; split; intros H; try discriminate;
      try reflexivity; try (right; split; reflexivity);
      destruct H as [H | [_ H]]; try lia; discriminate.
  - split; [intros _; now left | reflexivity].
  - split; [discriminate | lia].
Qed.

Lemma new_location_exact (n k : Z) : new_location n k = loc_Exact <-> k = 0.
Proof.
  unfold new_location, new_location_even, new_location_odd.
  destruct (Z.even n), (Z.eqb_spec k 0); split; intros H; try reflexivity;
    try discriminate; try contradiction; trivial.
Qed.

Lemma div_eucl_div_mod (a b : Z) : Z.div_eucl a b = (a / b, a mod b).
Proof. unfold Z.div, Z.modulo. now destruct (Z.div_eucl a b). Qed.

(** The quotient of a double by one that is no smaller is at most 1
    before rounding. *)
Lemma div_core_unit (m1 m2 : positive) (e1 e2 : Z) :
  bounded F64.prec F64.emax m1 e1 = true ->
  bounded F64.prec F64.emax m2 e2 = true ->
  SFleb (S754_finite false m1 e1) (S754_finite false m2 e2) = true ->
  exists q e' l,
    SFdiv_core_binary F64.prec F64.emax (Zpos m1) e1 (Zpos m2) e2 = (q, e', l)
    /\ F64.unit_bound q e' l.
Proof.
  intros Hb1 Hb2 Hle. apply leb_finite_iff in Hle.
  destruct (bounded_digits _ _ Hb1) as (Hd1 & He1 & Hn1).
  destruct (bounded_digits _ _ Hb2) as (Hd2 & He2 & Hn2).
  destruct (bounded_mantissa _ _ Hb1) as (Hm1 & _ & _).
  destruct (bounded_mantissa _ _ Hb2) as (_ & _ & Hm2).
  unfold SFdiv_core_binary. cbn [Zdigits2].
  set (d1 := Zpos (digits2_pos m1)) in *. set (d2 := Zpos (digits2_pos m2)) in *.
  assert (Hdig : d1 + e1 <= d2 + e2).
  { destruct Hle as [Hlt | [-> Hm]]; [specialize (Hn2 ltac:(lia)); lia|].
    pose proof (digits2_pos_mono Hm). fold d1 d2 in H. lia. }
  set (e' := Z.min (fexp F64.prec F64.emax (d1 + e1 - (d2 + e2))) (e1 - e2)).
  assert (He' : e' <= -53 /\ e' <= e1 - e2)
    by (unfold e', fexp, emin, F64.prec, F64.emax; lia).
  set (s := e1 - e2 - e').
  assert (Hs : 0 <= s) by (unfold s; lia).
  set (m' := match s with Zpos _ => Z.shiftl (Zpos m1) s | Z0 => Zpos m1 | Zneg _ => 0 end).
  assert (Hm' : m' = Zpos m1 * 2 ^ s).
  { unfold m'. destruct s as [|p|p] eqn:Hsp; [cbn; lia | | lia].
    now rewrite Z.shiftl_mul_pow2. }
  rewrite div_eucl_div_mod.
  exists (m' / Zpos m2), e', (new_location (Zpos m2) (m' mod Zpos m2)).
  split; [reflexivity|].
  assert (Hpows : 0 < 2 ^ s) by (apply Z.pow_pos_nonneg; lia).
  assert (Hsplit : 2 ^ (- e') = 2 ^ s * 2 ^ (e2 - e1))
    by (rewrite <- Z.pow_add_r by lia; f_equal; unfold s; lia).
  assert (Hnum : Zpos m1 <= Zpos m2 * 2 ^ (e2 - e1)).
  { destruct Hle as [Hlt | [-> Hm]].
    - specialize (Hm2 ltac:(lia)).
      assert (2 ^ 1 <= 2 ^ (e2 - e1)) by (apply Z.pow_le_mono_r; lia).
      change (2 ^ 1) with 2 in H. change (2 ^ 53) with (2 * 2 ^ 52) in Hm1. nia.
    - rewrite Z.sub_diag. change (2 ^ 0) with 1. lia. }
  assert (Hbound : m' <= Zpos m2 * 2 ^ (- e')).
  { rewrite Hm', Hsplit.
    replace (Zpos m2 * (2 ^ s * 2 ^ (e2 - e1))) with (Zpos m2 * 2 ^ (e2 - e1) * 2 ^ s) by ring.
    apply Z.mul_le_mono_nonneg_r; lia. }
  assert (Hm'pos : 0 <= m') by (rewrite Hm'; lia).
  pose proof (Z.mod_pos_bound m' (Zpos m2) ltac:(lia)) as Hmod.
  pose proof (Z.div_mod m' (Zpos m2) ltac:(lia)) as Hdm.
  repeat split.
  - apply Z.div_pos; lia.
  - lia.
  - apply Z.div_le_upper_bound; lia.
  - intros Hloc. rewrite new_location_exact in Hloc.
    apply Z.div_lt_upper_bound; [lia|].
    assert (Zpos m2 * (m' / Zpos m2) < m') by lia.
    destruct (Z.eq_dec m' (Zpos m2 * 2 ^ (- e'))) as [Heq|]; [|lia].
    exfalso. apply Hloc. rewrite Heq, Z.mul_comm. apply Z.mod_mul. lia.
Qed.

(** The quotient of a double by one of the same magnitude is 1 or -1. *)
Lemma div_same_magnitude (s : bool) (m : positive) (e : Z) :
  F64.div (S754_finite s m e) (S754_finite false m e)
  = S754_finite s 4503599627370496 (-52).
Proof.
  unfold F64.div, SFdiv, SFdiv_core_binary.
  rewrite Z.sub_diag, Z.sub_diag.
  change (Z.min (fexp F64.prec F64.emax 0) 0) with (-53).
  change (0 - -53) with 53.
  rewrite Z.shiftl_mul_pow2, div_eucl_div_mod by lia.
  rewrite (Z.mul_comm (Zpos m)), Z.div_mul, Z.mod_mul by lia.
  assert (Hloc : new_location (Zpos m) 0 = loc_Exact) by now apply new_location_exact.
  rewrite Hloc. now destruct s.
Qed.

End DivisionBound.

Section NormalizeDoubles.

Lemma nonneg_cases (a : F64.float) :
  F64.nonneg a ->
  a = S754_zero false
  \/ exists m e, a = S754_finite false m e /\ bounded F64.prec F64.emax m e = true.
Proof.
  intros [Hfin Hsign]. destruct a as [s | s | | s m e]; cbn in *; try discriminate.
  - left. now subst.
  - right. subst. eauto.
Qed.

Lemma abs_nonneg (x : F64.float) : F64.finite x = true -> F64.nonneg (F64.abs x).
Proof. destruct x; cbn; intros H; try discriminate; split; trivial. Qed.

Lemma max_nonneg (a b : F64.float) :
  F64.nonneg a -> F64.nonneg b -> F64.max a b = if SFltb a b then b else a.
Proof.
  intros Ha Hb.
  destruct (nonneg_cases Ha) as [-> | (? & ? & -> & _)];
    destruct (nonneg_cases Hb) as [-> | (? & ? & -> & _)]; reflexivity.
Qed.

Lemma ltb_leb (a b : F64.float) : SFltb a b = true -> SFleb a b = true.
Proof. unfold SFltb, SFleb. now destruct (SFcompare a b) as [[| |]|]. Qed.

Lemma leb_refl_nonneg (a : F64.float) : F64.nonneg a -> SFleb a a = true.
Proof.
  intros Ha. destruct (nonneg_cases Ha) as [-> | (m & e & -> & _)]; [reflexivity|].
  apply leb_finite_iff. right. split; [reflexivity | lia].
Qed.

Lemma ltb_false_leb (a b : F64.float) :
  F64.nonneg a -> F64.nonneg b -> SFltb a b = false -> SFleb b a = true.
Proof.
  intros Ha Hb.
  destruct (nonneg_cases Ha) as [-> | (m1 & e1 & -> & _)];
    destruct (nonneg_cases Hb) as [-> | (m2 & e2 & -> & _)];
    try reflexivity; try discriminate.
  intros Hlt. apply leb_finite_iff.
  destruct (Z.lt_trichotomy e1 e2) as [H | [H | H]]; [| |lia].
  - exfalso. assert (Hx : SFltb (S754_finite false m1 e1) (S754_finite false m2 e2) = true)
      by (apply ltb_finite_iff; lia). congruence.
  - destruct (Pos.lt_total m1 m2) as [Hm | [Hm | Hm]]; [|right; lia|right; lia].
    exfalso. assert (Hx : SFltb (S754_finite false m1 e1) (S754_finite false m2 e2) = true)
      by (apply ltb_finite_iff; lia). congruence.
Qed.

Lemma leb_trans_nonneg (a b c : F64.float) :
  F64.nonneg a -> F64.nonneg b -> F64.nonneg c ->
  SFleb a b = true -> SFleb b c = true -> SFleb a c = true.
Proof.
  intros Ha Hb Hc.
  destruct (nonneg_cases Ha) as [-> | (m1 & e1 & -> & _)];
    destruct (nonneg_cases Hb) as [-> | (m2 & e2 & -> & _)];
    destruct (nonneg_cases Hc) as [-> | (m3 & e3 & -> & _)];
    try reflexivity; try discriminate.
  rewrite !leb_finite_iff. lia.
Qed.

(** The peak of a list of magnitudes: one of them (or zero), and no
    smaller than any of them. *)
Lemma peak_doubles (l : list F64.float) :
  Forall F64.nonneg l ->
  F64.nonneg (fold_right F64.max (S754_zero false) l)
  /\ Forall (fun a => SFleb a (fold_right F64.max (S754_zero false) l) = true) l
  /\ (fold_right F64.max (S754_zero false) l = S754_zero false
      \/ In (fold_right F64.max (S754_zero false) l) l).
Proof.
  induction 1 as [|a l Ha Hl (IHn & IHle & IHin)]; cbn [fold_right].
  - repeat split; [constructor | now left].
  - set (p := fold_right F64.max (S754_zero false) l) in *.
    rewrite (max_nonneg Ha IHn).
    destruct (SFltb a p) eqn:Hlt.
    + split; [exact IHn|]. split.
      * constructor; [now apply ltb_leb | exact IHle].
      * destruct IHin as [Hz | Hin]; [now left | right; now right].
    + split; [exact Ha|]. split.
      * constructor; [now apply leb_refl_nonneg|].
        rewrite Forall_forall in *. intros b Hb.
        apply (leb_trans_nonneg (Hl b Hb) IHn Ha (IHle b Hb)).
        now apply ltb_false_leb.
      * right. now left.
Qed.

Lemma pow2_52 : 2 ^ 52 = 4503599627370496.
Proof. reflexivity. Qed.

Lemma pos_lt_of_le_neq (m c : positive) :
  Zpos m <= Zpos c -> m <> c -> (m < c)%positive.
Proof. lia. Qed.

Lemma pos_lt_le_absurd (m c : positive) :
  (c < m)%positive -> Zpos m <= Zpos c -> False.
Proof. lia. Qed.

Lemma max_unit_l (a : F64.float) :
  F64.within_unit a -> F64.sign_bit a = false -> F64.max a F64.one = F64.one.
Proof.
  change F64.one with (S754_finite false 4503599627370496 (-52)).
  destruct a as [s | s | | s m e]; cbn [F64.within_unit F64.sign_bit];
    intros Hu Hs; try contradiction; subst; [reflexivity|].
  cbn [F64.max].
  destruct (SFltb (S754_finite false m e) (S754_finite false 4503599627370496 (-52)))
    eqn:Hlt; [reflexivity|].
  pose proof (proj2 (ltb_finite_iff m 4503599627370496 e (-52))) as Hiff.
  destruct Hu as [He | [-> Hm]].
  - rewrite Hiff in Hlt by now left. discriminate Hlt.
  - rewrite pow2_52 in Hm.
    destruct (Pos.eq_dec m 4503599627370496) as [Heq | Hne]; [now rewrite Heq|].
    rewrite Hiff in Hlt; [discriminate Hlt|].
    right. split; [reflexivity|].
    now apply pos_lt_of_le_neq.
Qed.

Lemma max_unit_r (r : F64.float) :
  F64.within_unit r -> F64.sign_bit r = false -> F64.max F64.one r = F64.one.
Proof.
  change F64.one with (S754_finite false 4503599627370496 (-52)).
  destruct r as [s | s | | s m e]; cbn [F64.within_unit F64.sign_bit];
    intros Hu Hs; try contradiction; subst; [reflexivity|].
  cbn [F64.max].
  destruct (SFltb (S754_finite false 4503599627370496 (-52)) (S754_finite false m e))
    eqn:Hlt; [|reflexivity].
  apply (proj1 (ltb_finite_iff 4503599627370496 m (-52) e)) in Hlt.
  rewrite pow2_52 in Hu.
  exfalso. destruct Hlt as [Hlt | [He Hlt]]; destruct Hu as [Hu | [Hu1 Hu]].
  - lia.
  - clear Hu. lia.
  - clear Hlt. lia.
  - exact (pos_lt_le_absurd Hlt Hu).
Qed.

Lemma max_within_unit (a b : F64.float) :
  F64.within_unit a /\ F64.sign_bit a = false ->
  F64.within_unit b /\ F64.sign_bit b = false ->
  F64.within_unit (F64.max a b) /\ F64.sign_bit (F64.max a b) = false.
Proof.
  intros Ha Hb.
  destruct a as [? | ? | | ? ? ?], b as [? | ? | | ? ? ?];
    try (cbn in Ha, Hb; tauto); cbn [F64.max];
    match goal with |- context [if ?c then _ else _] => destruct c end; assumption.
Qed.

Lemma fold_max_unit (l : list F64.float) :
  Forall (fun a => F64.within_unit a /\ F64.sign_bit a = false) l ->
  In F64.one l ->
  fold_right F64.max (S754_zero false) l = F64.one.
Proof.
  intros Hl.
  assert (Hclosed : forall t, Forall (fun a => F64.within_unit a /\ F64.sign_bit a = false) t ->
                              F64.within_unit (fold_right F64.max (S754_zero false) t)
                              /\ F64.sign_bit (fold_right F64.max (S754_zero false) t) = false).
  { induction 1 as [|a t Ha _ IH]; cbn [fold_right]; [split; [exact I | reflexivity]|].
    now apply max_within_unit. }
  induction Hl as [|a l [Hu Hs] Hl IH]; [contradiction|].
  intros [-> | Hin]; cbn [fold_right].
  - now apply max_unit_r; apply Hclosed.
  - rewrite IH by exact Hin. now apply max_unit_l.
Qed.

(** A finite sample divided by a peak that is no smaller: the quotient is
    at most 1 in magnitude and keeps the sign of the sample. *)
Lemma div_by_peak (v : F64.float) (mp : positive) (ep : Z) :
  F64.finite v = true ->
  bounded F64.prec F64.emax mp ep = true ->
  SFleb (F64.abs v) (S754_finite false mp ep) = true ->
  F64.within_unit (F64.div v (S754_finite false mp ep))
  /\ F64.sign_bit (F64.div v (S754_finite false mp ep)) = F64.sign_bit v.
Proof.
  intros Hfin Hbp Hle. destruct v as [s | s | | s m e]; try discriminate.
  - cbn. now rewrite xorb_false_r.
  - cbn [F64.finite F64.abs SFabs] in *.
    destruct (div_core_unit _ _ _ _ Hfin Hbp Hle) as (q & e' & l & Hcore & Hbound).
    unfold F64.div, SFdiv. rewrite Hcore, xorb_false_r.
    exact (binary_round_aux_unit s Hbound).
Qed.

Lemma within_unit_abs (y : F64.float) :
  F64.within_unit y ->
  F64.within_unit (F64.abs y) /\ F64.sign_bit (F64.abs y) = false.
Proof. destruct y; cbn; intros H; try contradiction; auto. Qed.

(** On finite doubles with a non-zero peak, [normalize] divides by the
    peak; the peak of the result is exactly 1.0 and every sample keeps its
    sign bit. *)
Lemma normalize_doubles (x : ndarray F64.float) :
  Forall (fun v => F64.finite v = true) (ravel x) ->
  F64.eqb (peak x) (F64.of_Z 0) = false ->
  normalize x = (amap (fun v => F64.div v (peak x)) x, true)
  /\ peak (amap (fun v => F64.div v (peak x)) x) = F64.one
  /\ Forall (fun v => F64.sign_bit (F64.div v (peak x)) = F64.sign_bit v) (ravel x).
Proof.
  intros Hfin Hnz.
  assert (Hnorm : normalize x = (amap (fun v => F64.div v (peak x)) x, true))
    by (unfold normalize; cbn [s_eqb s_zero s_div F64_ops]; now rewrite Hnz).
  split; [exact Hnorm|].
  assert (Hmag : Forall F64.nonneg (map F64.abs (ravel x))).
  { apply Forall_map. eapply Forall_impl; [|exact Hfin]. apply abs_nonneg. }
  destruct (peak_doubles Hmag) as (Hpn & Hple & Hpin).
  change (fold_right F64.max (S754_zero false) (map F64.abs (ravel x))) with (peak x) in *.
  destruct (nonneg_cases Hpn) as [Hz | (mp & ep & Hp & Hbp)];
    [rewrite Hz in Hnz; discriminate|].
  destruct Hpin as [Hz | Hpin]; [congruence|].
  rewrite Hp in *.
  assert (Hq : Forall (fun v => F64.within_unit (F64.div v (S754_finite false mp ep))
                               /\ F64.sign_bit (F64.div v (S754_finite false mp ep))
                                  = F64.sign_bit v) (ravel x)).
  { rewrite Forall_forall in *. intros v Hv.
    apply div_by_peak; [auto | exact Hbp|].
    apply Hple. now apply in_map. }
  split.
  - unfold peak. cbn [s_max s_zero s_abs F64_ops]. rewrite ravel_amap.
    change (F64.of_Z 0) with (S754_zero false). apply fold_max_unit.
    + rewrite !Forall_map. eapply Forall_impl; [|exact Hq].
      cbn. intros v [Hu _]. now apply within_unit_abs.
    + apply in_map_iff in Hpin as (v & Hv & Hin).
      apply in_map_iff. exists (F64.div v (S754_finite false mp ep)).
      split; [|exact (in_map (fun w => F64.div w (S754_finite false mp ep)) _ _ Hin)].
      destruct v as [s | s | | s m e]; try discriminate.
      cbn in Hv. injection Hv as -> ->.
      now rewrite div_same_magnitude.
  - eapply Forall_impl; [|exact Hq]. cbn. now intros v [_ Hs].
Qed.

End NormalizeDoubles.

Section NormalizePeak.

Lemma leb_zero_nonneg (a : F64.float) :
  F64.nonneg a -> SFleb a (S754_zero false) = true -> a = S754_zero false.
Proof.
  intros Ha. destruct (nonneg_cases Ha) as [-> | (m & e & -> & _)]; [reflexivity|].
  discriminate.
Qed.

(** The peak of an array of finite doubles is a finite magnitude, no
    smaller than any sample's magnitude, and it is the magnitude of one of
    the samples. *)
Lemma peak_is_max (x : ndarray F64.float) :
  Forall (fun v => F64.finite v = true) (ravel x) ->
  F64.nonneg (peak x)
  /\ Forall (fun v => SFleb (F64.abs v) (peak x) = true) (ravel x)
  /\ (ravel x <> [] -> In (peak x) (map F64.abs (ravel x))).
Proof.
  intros Hfin.
  assert (Hmag : Forall F64.nonneg (map F64.abs (ravel x))).
  { apply Forall_map. eapply Forall_impl; [|exact Hfin]. apply abs_nonneg. }
  destruct (peak_doubles Hmag) as (Hpn & Hple & Hpin).
  change (fold_right F64.max (S754_zero false) (map F64.abs (ravel x))) with (peak x) in *.
  split; [exact Hpn|]. split; [now apply Forall_map in Hple|].
  intros Hne. destruct Hpin as [Hz | Hin]; [|exact Hin].
  destruct (ravel x) as [|v l]; [congruence|]. left.
  cbn [map] in Hmag, Hple. apply Forall_inv in Hmag, Hple.
  rewrite Hz in *. now apply leb_zero_nonneg.
Qed.

Lemma normalize_zero_peak (x : ndarray F64.float) :
  F64.eqb (peak x) (F64.of_Z 0) = true -> normalize x = (x, false).
Proof.
  intros Hz. unfold normalize. cbn [s_eqb s_zero F64_ops]. now rewrite Hz.
Qed.

End NormalizePeak.

(** C3, at finite doubles: the least positive double divided by the
    greatest double underflows, so a positive sample comes back as zero;
    and with an infinite sample the division gives a NaN. *)
Lemma normalize_unit_peak_counterexample :
  F64.finite F64.min_positive = true
  /\ F64.finite (S754_finite false 9007199254740991 971) = true
  /\ F64.ltb (F64.of_Z 0) F64.min_positive = true
  /\ normalize (Arr1 [F64.min_positive; S754_finite false 9007199254740991 971])
     = (Arr1 [S754_zero false; F64.of_Z 1], true)
  /\ F64.ltb (F64.of_Z 0) (S754_zero false) = false
  /\ normalize (Arr1 [S754_infinity false; F64.of_Z 1])
     = (Arr1 [S754_nan; S754_zero false], true).
Proof. repeat split; vm_compute; reflexivity. Qed.

(** C3, amended. On every array of finite doubles, [normalize] takes
    [peak = max(|sample|)]: a finite magnitude that no sample exceeds and
    that one sample attains. When the peak is zero it returns the input
    unchanged and [applied = false]; otherwise it returns [x / peak] and
    [applied = true], the largest absolute value of the output is exactly
    1.0, and every output sample has the sign bit of the input sample it
    comes from. In particular
    [normalize([-50, -25, 0, 25, 50]) == ([-1.0, -0.5, 0.0, 0.5, 1.0], true)]. *)
Theorem normalize_unit_peak :
  (forall x : ndarray F64.float,
      Forall (fun v => F64.finite v = true) (ravel x) ->
      F64.nonneg (peak x)
      /\ Forall (fun v => SFleb (F64.abs v) (peak x) = true) (ravel x)
      /\ (ravel x <> [] -> In (peak x) (map F64.abs (ravel x))))
  /\ (forall x : ndarray F64.float,
         F64.eqb (peak x) (F64.of_Z 0) = true -> normalize x = (x, false))
  /\ (forall x : ndarray F64.float,
         Forall (fun v => F64.finite v = true) (ravel x) ->
         F64.eqb (peak x) (F64.of_Z 0) = false ->
         normalize x = (amap (fun v => F64.div v (peak x)) x, true)
         /\ peak (amap (fun v => F64.div v (peak x)) x) = F64.one
         /\ Forall (fun v => F64.sign_bit (F64.div v (peak x)) = F64.sign_bit v)
                   (ravel x))
  /\ normalize (Arr1 (map F64.of_Z [-50; -25; 0; 25; 50]))
     = (Arr1 [F64.of_Z (-1); F64.ldexp (-1) (-1); F64.of_Z 0; F64.ldexp 1 (-1);
              F64.of_Z 1], true).
Proof.
  split; [|split; [|split]].
  - exact peak_is_max.
  - exact normalize_zero_peak.
  - exact normalize_doubles.
  - vm_compute. reflexivity.
Qed.

Lemma normalize_unit_peak_witness :
  (F64.nonneg (peak (Arr2 2 [[F64.of_Z (-50); F64.of_Z 25]; [F64.of_Z 0; F64.of_Z 10]]))
   /\ Forall (fun v => SFleb (F64.abs v)
                         (peak (Arr2 2 [[F64.of_Z (-50); F64.of_Z 25];
                                        [F64.of_Z 0; F64.of_Z 10]])) = true)
             (ravel (Arr2 2 [[F64.of_Z (-50); F64.of_Z 25]; [F64.of_Z 0; F64.of_Z 10]]))
   /\ (ravel (Arr2 2 [[F64.of_Z (-50); F64.of_Z 25]; [F64.of_Z 0; F64.of_Z 10]]) <> [] ->
       In (peak (Arr2 2 [[F64.of_Z (-50); F64.of_Z 25]; [F64.of_Z 0; F64.of_Z 10]]))
          (map F64.abs
               (ravel (Arr2 2 [[F64.of_Z (-50); F64.of_Z 25];
                               [F64.of_Z 0; F64.of_Z 10]])))))
  /\ normalize (Arr1 [F64.of_Z 0; S754_zero true; F64.of_Z 0])
     = (Arr1 [F64.of_Z 0; S754_zero true; F64.of_Z 0], false)
  /\ peak (amap (fun v => F64.div v
                            (peak (Arr2 2 [[F64.of_Z (-50); F64.of_Z 25];
                                           [F64.of_Z 0; F64.of_Z 10]])))
                (Arr2 2 [[F64.of_Z (-50); F64.of_Z 25]; [F64.of_Z 0; F64.of_Z 10]]))
     = F64.one.
Proof.
  split; [|split].
  - apply (proj1 normalize_unit_peak
             (Arr2 2 [[F64.of_Z (-50); F64.of_Z 25]; [F64.of_Z 0; F64.of_Z 10]])).
    repeat constructor.
  - apply (proj1 (proj2 normalize_unit_peak)
             (Arr1 [F64.of_Z 0; S754_zero true; F64.of_Z 0])).
    reflexivity.
  - apply (proj1 (proj2 (proj2 normalize_unit_peak))
             (Arr2 2 [[F64.of_Z (-50); F64.of_Z 25]; [F64.of_Z 0; F64.of_Z 10]])).
    + repeat constructor.
    + vm_compute. reflexivity.
Defined.

(** * Further properties of the transforms *)

(** ** Slices are blocks *)

Section Blocks.
Context {B : Type}.

Lemma getslice_block {C : Type} (l : list C) (start stop : Z) :
  exists pre suf, l = (pre ++ getslice l start stop ++ suf)%list.
Proof.
  unfold getslice.
  set (s := slice_bound (Z.of_nat (length l)) start).
  set (e := slice_bound (Z.of_nat (length l)) stop).
  destruct (s <? e).
  - exists (firstn (Z.to_nat s) l),
           (skipn (Z.to_nat (e - s)) (skipn (Z.to_nat s) l)).
    now rewrite firstn_skipn, firstn_skipn.
  - exists l, []. now rewrite app_nil_r.
Qed.

Lemma slice0_block (x : ndarray B) (start stop : Z) : is_block (slice0 x start stop) x.
Proof.
  destruct x as [xs | c rows]; cbn; [|split; [reflexivity|]]; apply getslice_block.
Qed.

Lemma getslice_length {C : Type} (l : list C) (start stop : Z) :
  (length (getslice l start stop) <= length l)%nat.
Proof.
  destruct (getslice_block l start stop) as (pre & suf & H).
  rewrite H at 2. rewrite !length_app. lia.
Qed.

End Blocks.

Lemma trim_returns_slice (array y : ndarray F64.float) :
  trim array = Return y -> exists start stop, y = slice0 array start stop.
Proof.
  unfold trim.
  destruct (first_nonzero array 0 (mask array) (-1)) as [first|]; [|discriminate].
  cbn [bind]. destruct (np_amin first) as [start|]; [|discriminate].
  cbn [bind]. destruct (last_nonzero array 0 (mask array) (-1)) as [last|]; [|discriminate].
  cbn [bind]. destruct (np_amax last) as [stop|]; [|discriminate].
  cbn [bind]. intros H. injection H as <-. eauto.
Qed.

(** X1. Whatever [trim] returns is a run of consecutive frames of its
    input, unchanged and with the same columns; it is never longer than
    the input. *)
Theorem trim_is_crop (array y : ndarray F64.float) :
  trim array = Return y ->
  is_block y array /\ (len y <= len array)%nat.
Proof.
  intros H. destruct (trim_returns_slice _ H) as (start & stop & ->).
  split; [apply slice0_block|].
  destruct array; cbn; apply getslice_length.
Qed.

Lemma trim_is_crop_witness :
  is_block (Arr1 [F64.of_Z 3; F64.of_Z 0; F64.of_Z 4])
           (Arr1 [F64.of_Z 0; F64.of_Z 0; F64.of_Z 3; F64.of_Z 0; F64.of_Z 4; F64.of_Z 0])
  /\ (len (Arr1 [F64.of_Z 3; F64.of_Z 0; F64.of_Z 4])
      <= len (Arr1 [F64.of_Z 0; F64.of_Z 0; F64.of_Z 3; F64.of_Z 0; F64.of_Z 4;
                    F64.of_Z 0]))%nat.
Proof. apply trim_is_crop. vm_compute. reflexivity. Defined.

(** ** The range that carries signal *)

Section ActiveRange.

Abbreviation any_true := (existsb (fun b : bool => b)).

Lemma index_of_skipn (bs : list bool) :
  any_true bs = true -> exists post, skipn (index_of true bs) bs = true :: post.
Proof.
  induction bs as [|b bs IH]; [discriminate|].
  destruct b; cbn; [eauto | exact IH].
Qed.

Lemma index_of_le (bs : list bool) (i : nat) :
  nth_error bs i = Some true -> (index_of true bs <= i)%nat.
Proof.
  revert i. induction bs as [|b bs IH]; intros [|i]; cbn; try discriminate.
  - intros H. injection H as ->. cbn. lia.
  - destruct b; cbn; [lia|]. intros H. apply IH in H. lia.
Qed.

Lemma nth_error_any (bs : list bool) (i : nat) :
  nth_error bs i = Some true -> any_true bs = true.
Proof.
  intros H. apply existsb_exists. exists true. split; [|reflexivity].
  eapply nth_error_In, H.
Qed.

Lemma any_nth_error (bs : list bool) :
  any_true bs = true -> nth_error bs (index_of true bs) = Some true.
Proof.
  induction bs as [|b bs IH]; [discriminate|]. destruct b; cbn; auto.
Qed.

Lemma nth_error_rev {C : Type} (l : list C) (i : nat) (v : C) :
  nth_error l i = Some v -> nth_error (rev l) (length l - 1 - i) = Some v.
Proof.
  intros H. assert (Hi : (i < length l)%nat) by (apply nth_error_Some; congruence).
  rewrite <- H. destruct l as [|d l']; [cbn in Hi; lia|].
  rewrite !(nth_error_nth' _ d) by (rewrite ?length_rev; lia).
  f_equal. rewrite rev_nth by lia. f_equal. lia.
Qed.

(** The first index with signal is no larger than the last one. *)
Lemma first_le_last (bs : list bool) :
  any_true bs = true ->
  (index_of true bs + index_of true (rev bs) < length bs)%nat.
Proof.
  intros Hany. pose proof (any_nth_error bs Hany) as Hnth.
  assert (Hlt : (index_of true bs < length bs)%nat)
    by (apply nth_error_Some; congruence).
  apply nth_error_rev, index_of_le in Hnth. lia.
Qed.

Lemma rev_crop_parts {C : Type} (l1 l2 l3 : list C) :
  firstn (length l2) (skipn (length l3) (rev (l1 ++ l2 ++ l3))) = rev l2.
Proof.
  rewrite !rev_app_distr, <- app_assoc.
  rewrite skipn_app, length_rev, Nat.sub_diag, skipn_all2 by (rewrite length_rev; lia).
  cbn [app skipn].
  rewrite firstn_app, length_rev, Nat.sub_diag, firstn_all2 by (rewrite length_rev; lia).
  cbn [firstn]. apply app_nil_r.
Qed.

Lemma rev_crop {C : Type} (l : list C) (a k : nat) :
  (a + k <= length l)%nat ->
  rev (firstn k (skipn a l)) = firstn k (skipn (length l - a - k) (rev l)).
Proof.
  intros Hlen.
  assert (Hparts : l = (firstn a l ++ firstn k (skipn a l) ++ skipn k (skipn a l))%list)
    by now rewrite !firstn_skipn.
  assert (Hk : length (firstn k (skipn a l)) = k)
    by (rewrite length_firstn, length_skipn; lia).
  assert (H3 : length (skipn k (skipn a l)) = (length l - a - k)%nat)
    by (rewrite !length_skipn; lia).
  rewrite Hparts at 3. rewrite <- Hk at 2. rewrite <- H3.
  symmetry. apply rev_crop_parts.
Qed.

Lemma getslice_map {C D : Type} (f : C -> D) (l : list C) (start stop : Z) :
  getslice (map f l) start stop = map f (getslice l start stop).
Proof.
  unfold getslice. rewrite length_map.
  destruct (_ <? _); [|reflexivity].
  now rewrite skipn_map, firstn_map.
Qed.

Lemma frames_slice0 (x : ndarray F64.float) (start stop : Z) :
  frames (slice0 x start stop) = getslice (frames x) start stop.
Proof. destruct x; cbn; [now rewrite getslice_map | reflexivity]. Qed.

Lemma getslice_all {C : Type} (l : list C) : getslice l 0 (Z.of_nat (length l)) = l.
Proof.
  change 0 with (Z.of_nat 0). rewrite getslice_nat by lia.
  now rewrite Nat.sub_0_r, firstn_all.
Qed.

(** The frames that [trim_spec] keeps, by natural-number positions. *)
Lemma trim_spec_frames (x : ndarray F64.float) :
  any_true (map frame_active (frames x)) = true ->
  frames (trim_spec x)
  = firstn (length (frames x)
            - index_of true (rev (map frame_active (frames x)))
            - index_of true (map frame_active (frames x)))
           (skipn (index_of true (map frame_active (frames x))) (frames x)).
Proof.
  intros Hany. pose proof (first_le_last _ Hany) as Hfl. rewrite length_map in Hfl.
  unfold trim_spec, earliest_active, latest_active. rewrite frames_slice0.
  replace (Z.of_nat (length (frames x)) - 1
           - Z.of_nat (index_of true (rev (map frame_active (frames x)))) + 1)
    with (Z.of_nat (length (frames x)
                    - index_of true (rev (map frame_active (frames x))))) by lia.
  apply getslice_nat. lia.
Qed.

End ActiveRange.

(** ** [trim] where every channel carries signal *)

Section TrimActive.

Abbreviation any_true := (existsb (fun b : bool => b)).
Abbreviation silent_frame := (fun f : list F64.float => frame_active f = false).

Lemma index_of_firstn_false (bs : list bool) :
  Forall (fun b => b = false) (firstn (index_of true bs) bs).
Proof.
  induction bs as [|b bs IH]; [constructor|].
  destruct b; cbn; [constructor | now constructor].
Qed.

Lemma channel_active_frame (x : ndarray F64.float) (j : nat) :
  channel_active x j ->
  exists i f, nth_error (frames x) i = Some f /\ frame_active f = true.
Proof.
  intros (f & v & Hin & Hnth & Hv). apply In_nth_error in Hin as [i Hi].
  exists i, f. split; [exact Hi|].
  apply existsb_exists. exists v. split; [eapply nth_error_In, Hnth | exact Hv].
Qed.

Lemma nchannels_pos (x : ndarray F64.float) (ch : string) :
  SampleArray x ch -> (0 < nchannels x)%nat.
Proof. destruct 1; cbn; lia. Qed.

Lemma active_any (x : ndarray F64.float) (ch : string) :
  SampleArray x ch -> every_channel_active x ->
  any_true (map frame_active (frames x)) = true.
Proof.
  intros Hx Hact.
  destruct (channel_active_frame (Hact 0%nat (nchannels_pos Hx))) as (i & f & Hi & Hf).
  apply (nth_error_any _ i). now rewrite nth_error_map, Hi, <- Hf.
Qed.

(** Where the entries that satisfy [p] begin and end. *)
Lemma signal_range {C : Type} (p : C -> bool) (fs : list C) :
  any_true (map p fs) = true ->
  let e := index_of true (map p fs) in
  let e' := index_of true (rev (map p fs)) in
  let kept := firstn (length fs - e' - e) (skipn e fs) in
  fs = (firstn e fs ++ kept ++ skipn (length fs - e') fs)%list
  /\ Forall (fun f => p f = false) (firstn e fs)
  /\ Forall (fun f => p f = false) (skipn (length fs - e') fs)
  /\ (exists f t, kept = f :: t /\ p f = true)
  /\ (exists t l, kept = (t ++ [l])%list /\ p l = true).
Proof.
  intros Hany e e' kept.
  pose proof (first_le_last _ Hany) as Hfl. rewrite length_map in Hfl.
  fold e e' in Hfl.
  assert (Hhead : forall gs, any_true (map p gs) = true ->
                  exists f t, skipn (index_of true (map p gs)) gs = f :: t
                              /\ p f = true).
  { intros gs Hg. destruct (index_of_skipn _ Hg) as [post Hpost].
    rewrite skipn_map in Hpost.
    destruct (skipn (index_of true (map p gs)) gs) as [|f t];
      [discriminate|].
    injection Hpost as Hf _. eauto. }
  assert (Hpre : forall gs, Forall (fun f => p f = false)
                                   (firstn (index_of true (map p gs)) gs)).
  { intros gs. pose proof (index_of_firstn_false (map p gs)) as H.
    rewrite firstn_map in H. now apply Forall_map in H. }
  assert (Hrev : any_true (map p (rev fs)) = true)
    by now rewrite map_rev, any_true_rev.
  split; [|split; [|split; [|split]]].
  - unfold kept. rewrite <- (firstn_skipn e fs) at 1. f_equal.
    rewrite <- (firstn_skipn (length fs - e' - e) (skipn e fs)) at 1. f_equal.
    rewrite skipn_skipn. f_equal. lia.
  - apply Hpre.
  - specialize (Hpre (rev fs)). rewrite map_rev in Hpre. fold e' in Hpre.
    rewrite firstn_rev in Hpre. now apply Forall_rev in Hpre; rewrite rev_involutive in Hpre.
  - destruct (Hhead fs Hany) as (f & t & Hskip & Hf). fold e in Hskip.
    unfold kept. rewrite Hskip.
    destruct (length fs - e' - e)%nat as [|k] eqn:Hk; [lia|]. cbn. eauto.
  - destruct (Hhead (rev fs) Hrev) as (l & t & Hskip & Hl).
    rewrite map_rev in Hskip. fold e' in Hskip.
    assert (Hk : rev kept = firstn (length fs - e' - e) (skipn e' (rev fs))).
    { unfold kept. rewrite rev_crop by lia. do 2 f_equal. lia. }
    rewrite Hskip in Hk.
    destruct (length fs - e' - e)%nat as [|k] eqn:Hkk; [lia|]. cbn [firstn] in Hk.
    exists (rev (firstn k t)), l. split; [|exact Hl].
    rewrite <- (rev_involutive kept), Hk. reflexivity.
Qed.

(** Where the frames with signal begin and end. *)
Lemma active_range (fs : list (list F64.float)) :
  any_true (map frame_active fs) = true ->
  let e := index_of true (map frame_active fs) in
  let e' := index_of true (rev (map frame_active fs)) in
  let kept := firstn (length fs - e' - e) (skipn e fs) in
  fs = (firstn e fs ++ kept ++ skipn (length fs - e') fs)%list
  /\ Forall silent_frame (firstn e fs)
  /\ Forall silent_frame (skipn (length fs - e') fs)
  /\ (exists f t, kept = f :: t /\ frame_active f = true)
  /\ (exists t l, kept = (t ++ [l])%list /\ frame_active l = true).
Proof. apply (signal_range frame_active). Qed.

Lemma Forall_getslice {C : Type} (P : C -> Prop) (l : list C) (start stop : Z) :
  Forall P l -> Forall P (getslice l start stop).
Proof.
  intros Hl. destruct (getslice_block l start stop) as (pre & suf & H).
  rewrite H in Hl. now apply Forall_app in Hl as [_ Hl]; apply Forall_app in Hl as [Hl _].
Qed.

Lemma slice0_sample_array (x : ndarray F64.float) (ch : string) (start stop : Z) :
  SampleArray x ch -> SampleArray (slice0 x start stop) ch.
Proof.
  destruct 1; cbn; constructor. now apply Forall_getslice.
Qed.

(** A frame at position [i] with signal lies in the kept range. *)
Lemma kept_contains (fs : list (list F64.float)) (i : nat) (f : list F64.float) :
  nth_error fs i = Some f -> frame_active f = true ->
  In f (firstn (length fs - index_of true (rev (map frame_active fs))
                - index_of true (map frame_active fs))
               (skipn (index_of true (map frame_active fs)) fs)).
Proof.
  intros Hi Hf.
  assert (Hb : nth_error (map frame_active fs) i = Some true)
    by now rewrite nth_error_map, Hi, <- Hf.
  assert (Hlen : (i < length fs)%nat) by (apply nth_error_Some; congruence).
  pose proof (index_of_le _ _ Hb) as He.
  apply nth_error_rev, index_of_le in Hb. rewrite length_map in Hb.
  set (e := index_of true (map frame_active fs)) in *.
  set (e' := index_of true (rev (map frame_active fs))) in *.
  apply (nth_error_In _ (i - e)).
  rewrite nth_error_firstn.
  destruct (Nat.ltb_spec (i - e) (length fs - e' - e)) as [_|]; [|lia].
  rewrite nth_error_skipn. rewrite <- Hi. f_equal. lia.
Qed.

Lemma trim_spec_active (x : ndarray F64.float) (ch : string) :
  SampleArray x ch -> every_channel_active x -> every_channel_active (trim_spec x).
Proof.
  intros Hx Hact j Hj.
  assert (Hn : nchannels (trim_spec x) = nchannels x) by now destruct x.
  rewrite Hn in Hj. pose proof (Hact j Hj) as Hc.
  destruct Hc as (f & v & Hin & Hnth & Hv). exists f, v. split; [|now split].
  rewrite trim_spec_frames by (eapply active_any; eassumption).
  apply In_nth_error in Hin as [i Hi]. apply (kept_contains _ _ Hi).
  apply existsb_exists. exists v. split; [eapply nth_error_In, Hnth | exact Hv].
Qed.

(** An array that begins and ends with a frame that carries signal is
    its own crop. *)
Lemma trim_spec_fixed (y : ndarray F64.float) :
  (exists f t, frames y = f :: t /\ frame_active f = true) ->
  (exists t l, frames y = (t ++ [l])%list /\ frame_active l = true) ->
  trim_spec y = y.
Proof.
  intros (f & t & Hhead & Hf) (t' & l & Hlast & Hl).
  unfold trim_spec, earliest_active, latest_active.
  rewrite Hhead at 1. cbn [map index_of]. rewrite Hf. cbn [Bool.eqb].
  rewrite Hlast at 2. rewrite map_app, rev_app_distr. cbn [map rev app index_of].
  rewrite Hl. cbn [Bool.eqb].
  replace (Z.of_nat (length (frames y)) - 1 - Z.of_nat 0 + 1)
    with (Z.of_nat (length (frames y))) by lia.
  rewrite frames_length.
  destruct y as [xs | c rows]; cbn [slice0 len]; now rewrite getslice_all.
Qed.

Lemma trim_active_result (x : ndarray F64.float) (ch : string) :
  SampleArray x ch -> every_channel_active x ->
  trim x = Return (trim_spec x)
  /\ SampleArray (trim_spec x) ch
  /\ every_channel_active (trim_spec x)
  /\ exists pre suf,
      frames x = (pre ++ frames (trim_spec x) ++ suf)%list
      /\ Forall silent_frame pre
      /\ Forall silent_frame suf
      /\ (exists f t, frames (trim_spec x) = f :: t /\ frame_active f = true)
      /\ (exists t l, frames (trim_spec x) = (t ++ [l])%list /\ frame_active l = true).
Proof.
  intros Hx Hact. pose proof (active_any Hx Hact) as Hany.
  split; [now apply (trim_meets_spec Hx)|].
  split; [now apply slice0_sample_array|].
  split; [now apply (trim_spec_active Hx)|].
  destruct (active_range _ Hany) as (Hparts & Hpre & Hsuf & Hhead & Hlast).
  rewrite <- trim_spec_frames in Hparts, Hhead, Hlast by exact Hany.
  eauto 10.
Qed.

End TrimActive.

(** X2. For a sample array in which every channel has a non-silent
    sample, [trim] removes exactly the leading and the trailing frames in
    which all samples are silent: the frames before and after the result
    are all silent, and the result begins and ends with a frame that has a
    non-silent sample. *)
Theorem trim_removes_silence (x : ndarray F64.float) (ch : string) :
  SampleArray x ch -> every_channel_active x ->
  exists (y : ndarray F64.float) (pre suf : list (list F64.float)),
    trim x = Return y
    /\ SampleArray y ch
    /\ frames x = (pre ++ frames y ++ suf)%list
    /\ Forall (fun f => frame_active f = false) pre
    /\ Forall (fun f => frame_active f = false) suf
    /\ (exists f t, frames y = f :: t /\ frame_active f = true)
    /\ (exists t l, frames y = (t ++ [l])%list /\ frame_active l = true).
Proof.
  intros Hx Hact.
  destruct (trim_active_result Hx Hact) as (Hrun & Hy & _ & pre & suf & H).
  exists (trim_spec x), pre, suf. tauto.
Qed.

(** X3. On a sample array in which every channel has a non-silent
    sample, [trim] is idempotent: trimming the trimmed array returns it
    unchanged. *)
Theorem trim_idempotent (x : ndarray F64.float) (ch : string) :
  SampleArray x ch -> every_channel_active x ->
  exists y : ndarray F64.float, trim x = Return y /\ trim y = Return y.
Proof.
  intros Hx Hact.
  destruct (trim_active_result Hx Hact) as (Hrun & Hy & Hacty & pre & suf & H).
  destruct H as (_ & _ & _ & Hhead & Hlast).
  exists (trim_spec x). split; [exact Hrun|].
  rewrite (trim_meets_spec Hy Hacty). f_equal. now apply trim_spec_fixed.
Qed.

(** X4. A sample array in which every channel has a non-silent sample and
    whose first and last frames each have a non-silent sample is returned
    by [trim] as it is. *)
Theorem trim_nothing_to_remove (x : ndarray F64.float) (ch : string) :
  SampleArray x ch -> every_channel_active x ->
  (exists f t, frames x = f :: t /\ frame_active f = true) ->
  (exists t l, frames x = (t ++ [l])%list /\ frame_active l = true) ->
  trim x = Return x.
Proof.
  intros Hx Hact Hhead Hlast.
  rewrite (trim_meets_spec Hx Hact). f_equal. now apply trim_spec_fixed.
Qed.

(** A stereo array with one silent frame at each end and signal in both
    channels between them. *)
Lemma padded_stereo_active :
  every_channel_active
    (Arr2 2 [[F64.of_Z 0; F64.of_Z 0]; [F64.of_Z 1; F64.of_Z 0];
             [F64.of_Z 0; F64.of_Z 2]; [F64.of_Z 0; F64.of_Z 0]]).
Proof.
  intros [|[|j]] Hj; [| |cbn in Hj; lia].
  - exists [F64.of_Z 1; F64.of_Z 0], (F64.of_Z 1). cbn. auto.
  - exists [F64.of_Z 0; F64.of_Z 2], (F64.of_Z 2). cbn. auto 6.
Qed.

Lemma tight_stereo_active :
  every_channel_active (Arr2 2 [[F64.of_Z 1; F64.of_Z 0]; [F64.of_Z 0; F64.of_Z 2]]).
Proof.
  intros [|[|j]] Hj; [| |cbn in Hj; lia].
  - exists [F64.of_Z 1; F64.of_Z 0], (F64.of_Z 1). cbn. auto.
  - exists [F64.of_Z 0; F64.of_Z 2], (F64.of_Z 2). cbn. auto.
Qed.

Lemma trim_removes_silence_witness :
  exists (y : ndarray F64.float) (pre suf : list (list F64.float)),
    trim (Arr2 2 [[F64.of_Z 0; F64.of_Z 0]; [F64.of_Z 1; F64.of_Z 0];
                  [F64.of_Z 0; F64.of_Z 2]; [F64.of_Z 0; F64.of_Z 0]]) = Return y
    /\ SampleArray y "2"
    /\ frames (Arr2 2 [[F64.of_Z 0; F64.of_Z 0]; [F64.of_Z 1; F64.of_Z 0];
                       [F64.of_Z 0; F64.of_Z 2]; [F64.of_Z 0; F64.of_Z 0]])
       = (pre ++ frames y ++ suf)%list
    /\ Forall (fun f => frame_active f = false) pre
    /\ Forall (fun f => frame_active f = false) suf
    /\ (exists f t, frames y = f :: t /\ frame_active f = true)
    /\ (exists t l, frames y = (t ++ [l])%list /\ frame_active l = true).
Proof.
  apply trim_removes_silence; [|exact padded_stereo_active].
  constructor. repeat constructor.
Defined.

Lemma trim_idempotent_witness :
  exists y : ndarray F64.float,
    trim (Arr2 2 [[F64.of_Z 0; F64.of_Z 0]; [F64.of_Z 1; F64.of_Z 0];
                  [F64.of_Z 0; F64.of_Z 2]; [F64.of_Z 0; F64.of_Z 0]]) = Return y
    /\ trim y = Return y.
Proof.
  apply (@trim_idempotent _ "2"); [|exact padded_stereo_active].
  constructor. repeat constructor.
Defined.

Lemma trim_nothing_to_remove_witness :
  trim (Arr2 2 [[F64.of_Z 1; F64.of_Z 0]; [F64.of_Z 0; F64.of_Z 2]])
  = Return (Arr2 2 [[F64.of_Z 1; F64.of_Z 0]; [F64.of_Z 0; F64.of_Z 2]]).
Proof.
  apply (@trim_nothing_to_remove _ "2").
  - constructor. repeat constructor.
  - exact tight_stereo_active.
  - do 2 eexists. split; reflexivity.
  - exists [[F64.of_Z 1; F64.of_Z 0]], [F64.of_Z 0; F64.of_Z 2]. split; reflexivity.
Defined.

(** ** [trim] on a stereo array with one silent channel *)

Section TrimSilentChannel.

Abbreviation any_true := (existsb (fun b : bool => b)).

Lemma column_app {C : Type} (r1 r2 : list (list C)) (j : nat) :
  column (r1 ++ r2) j = (column r1 j ++ column r2 j)%list.
Proof. unfold column. apply flat_map_app. Qed.

Lemma column_map {C D : Type} (f : C -> D) (rows : list (list C)) (j : nat) :
  column (map (map f) rows) j = map f (column rows j).
Proof.
  unfold column. induction rows as [|r rows IH]; [reflexivity|].
  cbn [map flat_map]. rewrite map_app, IH, nth_error_map.
  now destruct (nth_error r j).
Qed.

Lemma column_rev {C : Type} (rows : list (list C)) (j : nat) :
  column (rev rows) j = rev (column rows j).
Proof.
  induction rows as [|r rows IH]; [reflexivity|].
  cbn [rev]. rewrite column_app, IH. unfold column at 2 3. cbn [flat_map].
  rewrite rev_app_distr, app_nil_r. f_equal.
  now destruct (nth_error r j).
Qed.

Lemma argmax_lane_nonneg (l : list bool) : 0 <= argmax_lane l.
Proof. unfold argmax_lane. lia. Qed.

Lemma getslice_last_frame {C : Type} (front : list C) (l : C) :
  getslice (front ++ [l]) (-1) (Z.of_nat (length (front ++ [l]))) = [l].
Proof.
  unfold getslice, slice_bound. rewrite length_app. cbn [length].
  change (-1 <? 0) with true. cbv iota.
  destruct (Z.ltb_spec (Z.of_nat (length front + 1)) 0) as [|_]; [lia|].
  rewrite Z.min_id.
  replace (Z.max (-1 + Z.of_nat (length front + 1)) 0) with (Z.of_nat (length front))
    by lia.
  destruct (Z.ltb_spec (Z.of_nat (length front)) (Z.of_nat (length front + 1)))
    as [_|]; [|lia].
  rewrite Nat2Z.id.
  replace (Z.to_nat (Z.of_nat (length front + 1) - Z.of_nat (length front)))
    with 1%nat by lia.
  rewrite skipn_app, skipn_all, Nat.sub_diag. reflexivity.
Qed.

Lemma getslice_from_last_empty {C : Type} (l : list C) (stop : Z) :
  stop < Z.of_nat (length l) -> getslice l (-1) stop = [].
Proof.
  intros Hstop. unfold getslice, slice_bound.
  change (-1 <? 0) with true. cbv iota.
  destruct (Z.ltb_spec stop 0);
    match goal with |- (if ?a <? ?b then _ else _) = _ =>
      destruct (Z.ltb_spec a b); [lia | reflexivity] end.
Qed.

(** What [trim] returns when channel [a] is silent and the other channel,
    [b], carries signal. *)
Lemma trim_silent_channel_general (front : list (list F64.float)) (l : list F64.float)
      (a b : nat) :
  Forall (fun r => length r = 2%nat) (front ++ [l]) ->
  (a = 0%nat /\ b = 1%nat) \/ (a = 1%nat /\ b = 0%nat) ->
  Forall (fun v => mask_value v = false) (column (front ++ [l]) a) ->
  channel_active (Arr2 2 (front ++ [l])) b ->
  trim (Arr2 2 (front ++ [l]))
  = Return (Arr2 2 (if frame_active l then [l] else [])).
Proof.
  intros Hrows Hab Hsil Hact.
  set (rows := (front ++ [l])%list) in *.
  set (bs := map (map mask_value) rows).
  pose proof (channel_active_column Hact) as Hany_b. fold bs in Hany_b.
  assert (Hany_a : any_true (column bs a) = false).
  { unfold bs. rewrite column_map. now apply any_true_silent. }
  assert (Hany_rev : any_true (column (rev bs) b) = true)
    by now rewrite column_rev, any_true_rev.
  assert (Hbs : bs <> []) by (unfold bs, rows; destruct front; discriminate).
  (* the last frame *)
  apply Forall_app in Hrows as Hl. destruct Hl as [_ Hl].
  apply Forall_inv in Hl. destruct l as [|v0 [|v1 [|? ?]]]; try discriminate. clear Hl.
  assert (Hla : mask_value (nth a [v0; v1] v0) = false).
  { unfold rows in Hsil. rewrite column_app in Hsil.
    apply Forall_app in Hsil as [_ Hsil].
    destruct Hab as [[-> ->] | [-> ->]]; cbn in Hsil; now apply Forall_inv in Hsil. }
  assert (Hidx : index_of true (column (rev bs) b)
                 = if mask_value (nth b [v0; v1] v0) then 0%nat
                   else S (index_of true (rev (column (map (map mask_value) front) b)))).
  { unfold bs, rows. rewrite column_rev, map_app, column_app, rev_app_distr.
    destruct Hab as [[-> ->] | [-> ->]];
      change (column (map (map mask_value) [[v0; v1]]) 1) with [mask_value v1];
      change (column (map (map mask_value) [[v0; v1]]) 0) with [mask_value v0];
      cbn [rev app nth index_of];
      match goal with |- context [mask_value ?v] => destruct (mask_value v) end;
      reflexivity. }
  assert (Hframe : frame_active [v0; v1] = mask_value (nth b [v0; v1] v0)).
  { destruct Hab as [[-> ->] | [-> ->]]; cbn in *; rewrite Hla; cbn;
      now rewrite ?orb_false_r. }
  unfold trim. cbn [mask amap]. fold bs.
  rewrite first_nonzero_stereo, last_nonzero_stereo by exact Hbs.
  assert (Hstart : np_amin [if any_true (column bs 0) then argmax_lane (column bs 0) else -1;
                            if any_true (column bs 1) then argmax_lane (column bs 1) else -1]
                   = Return (-1)).
  { cbn [np_amin fold_left].
    pose proof (argmax_lane_nonneg (column bs 0)).
    pose proof (argmax_lane_nonneg (column bs 1)).
    destruct Hab as [[-> ->] | [-> ->]]; rewrite Hany_a, Hany_b; f_equal; lia. }
  cbn [bind]. rewrite Hstart. cbn [bind np_amax fold_left].
  assert (Hstop : Z.max (if any_true (column bs 0)
                         then Z.of_nat (length rows) - argmax_lane (column (rev bs) 0) - 1
                         else -1)
                        (if any_true (column bs 1)
                         then Z.of_nat (length rows) - argmax_lane (column (rev bs) 1) - 1
                         else -1) + 1
                  = Z.of_nat (length rows) - Z.of_nat (index_of true (column (rev bs) b))).
  { pose proof (index_of_bound _ Hany_rev) as Hbound.
    assert (Hcl : (length (column (rev bs) b) <= length rows)%nat).
    { rewrite column_rev, length_rev. unfold bs. rewrite column_map, length_map.
      unfold column. clear. induction rows as [|r rs IH]; cbn; [lia|].
      rewrite length_app. destruct (nth_error r b); cbn; lia. }
    assert (Harg : argmax_lane (column (rev bs) b)
                   = Z.of_nat (index_of true (column (rev bs) b)))
      by (unfold argmax_lane; now rewrite Hany_rev).
    destruct Hab as [[-> ->] | [-> ->]]; rewrite Hany_a, Hany_b, Harg; lia. }
  rewrite Hstop, Hidx, Hframe. cbn [slice0].
  destruct (mask_value (nth b [v0; v1] v0)).
  - rewrite Z.sub_0_r. unfold rows. now rewrite getslice_last_frame.
  - rewrite getslice_from_last_empty by lia. reflexivity.
Qed.

End TrimSilentChannel.

(** X5. When one channel of a stereo sample array is silent throughout
    and the other channel has a non-silent sample, [trim] returns at most
    the last frame of the array: exactly the last frame when that frame
    has a non-silent sample, and no frame at all otherwise, wherever the
    signal lies. *)
Theorem trim_one_channel_silent (rows : list (list F64.float)) (a b : nat) :
  SampleArray (Arr2 2 rows) "2" ->
  (a = 0%nat /\ b = 1%nat) \/ (a = 1%nat /\ b = 0%nat) ->
  Forall (fun v => mask_value v = false) (column rows a) ->
  channel_active (Arr2 2 rows) b ->
  exists (front : list (list F64.float)) (l : list F64.float),
    rows = (front ++ [l])%list
    /\ trim (Arr2 2 rows) = Return (Arr2 2 (if frame_active l then [l] else [])).
Proof.
  intros Hx Hab Hsil Hact. inversion Hx as [|rows' Hrows]; subst.
  destruct (exists_last (l := rows)) as (front & l & ->).
  { intros ->. destruct Hact as (f & _ & [] & _). }
  exists front, l. split; [reflexivity|].
  now apply (trim_silent_channel_general front l (a := a) (b := b)).
Qed.

Lemma trim_one_channel_silent_witness :
  exists (front : list (list F64.float)) (l : list F64.float),
    [[F64.of_Z 5; F64.of_Z 0]; [F64.of_Z 7; F64.of_Z 0]; [F64.of_Z 0; F64.of_Z 0]]
    = (front ++ [l])%list
    /\ trim (Arr2 2 [[F64.of_Z 5; F64.of_Z 0]; [F64.of_Z 7; F64.of_Z 0];
                     [F64.of_Z 0; F64.of_Z 0]])
       = Return (Arr2 2 (if frame_active l then [l] else [])).
Proof.
  apply (@trim_one_channel_silent _ 1%nat 0%nat).
  - constructor. repeat constructor.
  - right. split; reflexivity.
  - repeat constructor.
  - exists [F64.of_Z 5; F64.of_Z 0], (F64.of_Z 5). cbn. auto.
Defined.

(** ** The boundary indices *)

Section BoundaryIndices.

Abbreviation any_true := (existsb (fun b : bool => b)).

Lemma any_false_silent (samples : list F64.float) :
  any_true (map mask_value samples) = false ->
  Forall (fun v => mask_value v = false) samples.
Proof.
  induction samples as [|v l IH]; [constructor|].
  cbn. intros H. apply orb_false_elim in H as [Hv Hl]. constructor; auto.
Qed.

Lemma lane_first (inv : Z) (samples : list F64.float) :
  first_signal inv samples
    (if any_true (map mask_value samples)
     then argmax_lane (map mask_value samples) else inv).
Proof.
  destruct (any_true (map mask_value samples)) eqn:Hany.
  - right. destruct (signal_range mask_value samples Hany)
      as (Hparts & Hpre & _ & (v & t & Hkept & Hv) & _).
    pose proof (first_le_last _ Hany) as Hfl. rewrite length_map in Hfl.
    rewrite Hkept in Hparts.
    eexists _, v, _. split; [exact Hparts|]. split; [|split; [exact Hv | exact Hpre]].
    unfold argmax_lane. rewrite Hany, length_firstn. f_equal. lia.
  - left. split; [now apply any_false_silent | reflexivity].
Qed.

Lemma lane_last (inv : Z) (samples : list F64.float) :
  last_signal inv samples
    (if any_true (map mask_value samples)
     then Z.of_nat (length samples) - argmax_lane (rev (map mask_value samples)) - 1
     else inv).
Proof.
  destruct (any_true (map mask_value samples)) eqn:Hany.
  - right. destruct (signal_range mask_value samples Hany)
      as (Hparts & _ & Hsuf & _ & (t & l & Hkept & Hl)).
    pose proof (first_le_last _ Hany) as Hfl. rewrite length_map in Hfl.
    assert (Hlen : length (t ++ [l]) = (length samples
                     - index_of true (rev (map mask_value samples))
                     - index_of true (map mask_value samples))%nat)
      by (rewrite <- Hkept, length_firstn, length_skipn; lia).
    rewrite length_app in Hlen. cbn [length] in Hlen.
    rewrite Hkept, <- app_assoc in Hparts. cbn [app] in Hparts.
    rewrite app_assoc in Hparts.
    eexists _, l, _. split; [exact Hparts|]. split; [|split; [exact Hl | exact Hsuf]].
    unfold argmax_lane. rewrite any_true_rev, Hany, length_app, length_firstn. lia.
  - left. split; [now apply any_false_silent | reflexivity].
Qed.

Lemma column_length_pairs {C : Type} (rows : list (list C)) (k : nat) :
  Forall (fun r => length r = 2%nat) rows -> (k < 2)%nat ->
  length (column rows k) = length rows.
Proof.
  intros Hrows Hk. unfold column. induction Hrows as [|r rows Hr _ IH]; [reflexivity|].
  cbn [flat_map]. rewrite length_app, IH.
  destruct (nth_error r k) eqn:Hn; [reflexivity|].
  apply nth_error_None in Hn. lia.
Qed.

End BoundaryIndices.

(** X6. On a sample array with at least one frame, [first_nonzero] and
    [last_nonzero] along axis 0 return one index per channel: the position
    of the first, respectively the last, non-silent sample of that
    channel, and the marker [invalid_val] for a channel whose samples are
    all silent. *)
Theorem boundary_indices (x : ndarray F64.float) (ch : string) (inv : Z) :
  SampleArray x ch -> (0 < len x)%nat ->
  exists firsts lasts : list Z,
    first_nonzero x 0 (mask x) inv = Return firsts
    /\ last_nonzero x 0 (mask x) inv = Return lasts
    /\ length firsts = nchannels x
    /\ length lasts = nchannels x
    /\ forall k, (k < nchannels x)%nat ->
        first_signal inv (channel_samples x k) (nth k firsts inv)
        /\ last_signal inv (channel_samples x k) (nth k lasts inv).
Proof.
  intros Hx Hlen. destruct Hx as [xs | rows Hrows]; cbn [len nchannels mask amap] in *.
  - assert (Hbs : map mask_value xs <> []) by (destruct xs; [cbn in Hlen; lia | discriminate]).
    rewrite first_nonzero_mono, last_nonzero_mono by exact Hbs.
    do 2 eexists. repeat split; try reflexivity.
    + destruct k as [|k]; [|lia]. apply lane_first.
    + destruct k as [|k]; [|lia]. apply lane_last.
  - assert (Hbs : map (map mask_value) rows <> [])
      by (destruct rows; [cbn in Hlen; lia | discriminate]).
    rewrite first_nonzero_stereo, last_nonzero_stereo by exact Hbs.
    do 2 eexists. repeat split; try reflexivity.
    + destruct k as [|[|k]]; [| |lia]; cbn [nth channel_samples];
        rewrite column_map; apply lane_first.
    + destruct k as [|[|k]]; [| |lia]; cbn [nth channel_samples];
        rewrite column_rev, !column_map.
      * rewrite <- (column_length_pairs (k := 0) Hrows) by lia. apply lane_last.
      * rewrite <- (column_length_pairs (k := 1) Hrows) by lia. apply lane_last.
Qed.

Lemma boundary_indices_witness :
  exists firsts lasts : list Z,
    first_nonzero (Arr1 [F64.of_Z 0; F64.of_Z 3; F64.of_Z 0; F64.of_Z 4; F64.of_Z 0]) 0
                  (mask (Arr1 [F64.of_Z 0; F64.of_Z 3; F64.of_Z 0; F64.of_Z 4; F64.of_Z 0]))
                  (-1)
    = Return firsts
    /\ last_nonzero (Arr1 [F64.of_Z 0; F64.of_Z 3; F64.of_Z 0; F64.of_Z 4; F64.of_Z 0]) 0
                    (mask (Arr1 [F64.of_Z 0; F64.of_Z 3; F64.of_Z 0; F64.of_Z 4; F64.of_Z 0]))
                    (-1)
       = Return lasts
    /\ length firsts
       = nchannels (Arr1 [F64.of_Z 0; F64.of_Z 3; F64.of_Z 0; F64.of_Z 4; F64.of_Z 0])
    /\ length lasts
       = nchannels (Arr1 [F64.of_Z 0; F64.of_Z 3; F64.of_Z 0; F64.of_Z 4; F64.of_Z 0])
    /\ forall k,
        (k < nchannels (Arr1 [F64.of_Z 0; F64.of_Z 3; F64.of_Z 0; F64.of_Z 4; F64.of_Z 0]))%nat ->
        first_signal (-1)
          (channel_samples (Arr1 [F64.of_Z 0; F64.of_Z 3; F64.of_Z 0; F64.of_Z 4; F64.of_Z 0]) k)
          (nth k firsts (-1))
        /\ last_signal (-1)
             (channel_samples (Arr1 [F64.of_Z 0; F64.of_Z 3; F64.of_Z 0; F64.of_Z 4; F64.of_Z 0]) k)
             (nth k lasts (-1)).
Proof. apply (@boundary_indices _ "1"); [constructor | cbn; lia]. Defined.

(** ** [reverse]: every outcome *)

Section ReverseOutcomes.
Context {A : Type}.

Lemma reverse_flat_untagged (xs : list A) (ch : string) (n : Z) :
  ch <> "1" -> 0 < n -> Z.of_nat (length xs) mod n = 0 ->
  reverse (Arr1 xs) ch n
  = ([], Return (Some (Arr2 (Z.to_nat (Z.of_nat (length xs) / n))
                            (map (@rev _) (segments xs n))))).
Proof.
  intros Hch Hn Hmod.
  rewrite reverse_guard, np_split_ok by assumption.
  destruct (segments_spec xs Hn Hmod) as (Hk & Heach & _).
  cbn [bind]. unfold np_flip_axis1. rewrite map_map. cbn [flip0].
  rewrite <- (map_map (@rev _) Arr1), row_stack_flat by now apply segments_nonempty.
  cbn [bind].
  destruct (String.eqb_spec ch "1") as [->|_]; [contradiction|].
  do 4 f_equal.
  destruct (segments xs n) as [|s segs]; [cbn in Hk; lia|].
  cbn [map hd]. rewrite length_rev. now apply Forall_inv in Heach.
Qed.

Lemma reverse_rows_tagged_mono (c : nat) (rows : list (list A)) (n : Z) :
  Forall (fun r => length r = c) rows ->
  0 < n -> Z.of_nat (length rows) mod n = 0 ->
  reverse (Arr2 c rows) "1" n
  = ([], Return (Some (Arr1 (concat (concat (map (@rev _) (segments rows n))))))).
Proof.
  intros Hrect Hn Hmod.
  rewrite reverse_guard, np_split_ok by assumption.
  destruct (segments_spec rows Hn Hmod) as (_ & _ & Hcat).
  cbn [bind]. unfold np_flip_axis1. rewrite map_map. cbn [flip0].
  rewrite <- (map_map (@rev _) (Arr2 c)), row_stack_rows by now apply segments_nonempty.
  cbn [bind String.eqb Ascii.eqb Bool.eqb]. unfold reshape1. cbn [ravel size].
  rewrite (concat_length_each (each := c)).
  - rewrite length_concat_rev, Hcat, Nat.eqb_refl. reflexivity.
  - apply Forall_concat_rev. now rewrite Hcat.
Qed.

Lemma reverse_zero (x : ndarray A) (ch : string) :
  reverse x ch 0 = ([], Raise "ZeroDivisionError").
Proof. reflexivity. Qed.

Lemma reverse_negative (x : ndarray A) (ch : string) (n : Z) :
  n < 0 -> Z.of_nat (len x) mod n = 0 ->
  reverse x ch n = ([], Raise "ValueError").
Proof.
  intros Hn Hmod. unfold reverse, np_split.
  destruct (Z.eqb_spec n 0) as [->|_]; [lia|].
  rewrite Hmod. cbn [Z.eqb negb].
  destruct (Z.leb_spec n 0) as [_|]; [reflexivity | lia].
Qed.

Lemma reverse_not_dividing (x : ndarray A) (ch : string) (n : Z) :
  n <> 0 -> Z.of_nat (len x) mod n <> 0 ->
  reverse x ch n
  = (["Error: array size not divisible by subdivision."], Return None).
Proof.
  intros Hn Hmod. unfold reverse.
  destruct (Z.eqb_spec n 0) as [->|_]; [contradiction|].
  destruct (Z.eqb_spec (Z.of_nat (len x) mod n) 0) as [Heq|_]; [contradiction|].
  reflexivity.
Qed.

Lemma reverse_dividing (x : ndarray A) (ch : string) (n : Z) :
  rectangular x -> 0 < n -> Z.of_nat (len x) mod n = 0 ->
  exists y, reverse x ch n = ([], Return (Some y)) /\ size y = size x.
Proof.
  intros Hrect Hn Hmod. destruct x as [xs | c rows]; cbn [len rectangular] in *.
  - destruct (segments_spec xs Hn Hmod) as (Hk & Heach & Hcat).
    destruct (String.eqb_spec ch "1") as [->|Hch].
    + eexists. split; [now apply reverse_mono|].
      cbn [size]. now rewrite length_concat_rev, Hcat.
    + eexists. split; [now apply reverse_flat_untagged|].
      cbn [size]. rewrite length_map, Hk. symmetry. now apply sections_arith.
  - destruct (segments_spec rows Hn Hmod) as (Hk & Heach & Hcat).
    destruct (String.eqb_spec ch "1") as [->|Hch].
    + eexists. split; [now apply reverse_rows_tagged_mono|].
      cbn [size]. rewrite (concat_length_each (each := c)).
      * now rewrite length_concat_rev, Hcat.
      * apply Forall_concat_rev. now rewrite Hcat.
    + eexists. split; [now apply reverse_rows|].
      cbn [size]. now rewrite length_concat_rev, Hcat.
Qed.

End ReverseOutcomes.

(** X7. The outcomes of [reverse] on an array of any shape and any channel
    tag: subdivision 0 raises [ZeroDivisionError]; a subdivision that does
    not divide the length prints the error line and returns [None]; a
    negative subdivision that divides the length raises [ValueError] (from
    [np.split]); a positive subdivision that divides the length returns an
    array with as many samples as the input. An array is returned in no
    other case. *)
Theorem reverse_outcomes (A : Type) (x : ndarray A) (ch : string) (n : Z) :
  rectangular x ->
  (n = 0 -> reverse x ch n = ([], Raise "ZeroDivisionError"))
  /\ (n <> 0 -> Z.of_nat (len x) mod n <> 0 ->
      reverse x ch n
      = (["Error: array size not divisible by subdivision."], Return None))
  /\ (n < 0 -> Z.of_nat (len x) mod n = 0 ->
      reverse x ch n = ([], Raise "ValueError"))
  /\ (0 < n -> Z.of_nat (len x) mod n = 0 ->
      exists y, reverse x ch n = ([], Return (Some y)) /\ size y = size x)
  /\ (forall y out, reverse x ch n = (out, Return (Some y)) ->
      0 < n /\ Z.of_nat (len x) mod n = 0).
Proof.
  intros Hrect. split; [intros ->; apply reverse_zero|].
  split; [apply reverse_not_dividing|].
  split; [apply reverse_negative|].
  split; [now apply reverse_dividing|].
  intros y out Hrun.
  destruct (Z.eq_dec n 0) as [-> | Hn0]; [rewrite reverse_zero in Hrun; discriminate|].
  destruct (Z.eq_dec (Z.of_nat (len x) mod n) 0) as [Hmod | Hmod].
  - split; [|exact Hmod]. destruct (Z.lt_ge_cases 0 n) as [|Hneg]; [assumption|].
    rewrite reverse_negative in Hrun by (trivial; lia). discriminate.
  - rewrite reverse_not_dividing in Hrun by assumption. discriminate.
Qed.

Lemma reverse_outcomes_witness :
  (0 = 0 -> reverse (Arr2 2 [[1; 2]; [3; 4]]) "2" 0 = ([], Raise "ZeroDivisionError"))
  /\ (-2 < 0 -> Z.of_nat (len (Arr2 2 [[1; 2]; [3; 4]])) mod (-2) = 0 ->
      reverse (Arr2 2 [[1; 2]; [3; 4]]) "2" (-2) = ([], Raise "ValueError"))
  /\ (0 < 2 -> Z.of_nat (len (Arr2 2 [[1; 2]; [3; 4]])) mod 2 = 0 ->
      exists y, reverse (Arr2 2 [[1; 2]; [3; 4]]) "2" 2 = ([], Return (Some y))
                /\ size y = size (Arr2 2 [[1; 2]; [3; 4]])).
Proof.
  split; [|split].
  - apply (reverse_outcomes (Arr2 2 [[1; 2]; [3; 4]]) "2" 0). repeat constructor.
  - apply (reverse_outcomes (Arr2 2 [[1; 2]; [3; 4]]) "2" (-2)). repeat constructor.
  - apply (reverse_outcomes (Arr2 2 [[1; 2]; [3; 4]]) "2" 2). repeat constructor.
Defined.

(** ** [reverse]: what happens to the frames *)

Section ReverseFrames.
Context {A : Type}.

Lemma concat_map_rev_perm {B : Type} (segs : list (list B)) :
  Permutation (concat (map (@rev _) segs)) (concat segs).
Proof.
  induction segs as [|s segs IH]; cbn [map concat]; [constructor|].
  apply Permutation_app; [|exact IH].
  apply Permutation_sym, Permutation_rev.
Qed.

Lemma rev_concat_blocks {B : Type} (segs : list (list B)) :
  rev (concat segs) = concat (map (@rev _) (rev segs)).
Proof.
  induction segs as [|s segs IH]; cbn [concat rev map]; [reflexivity|].
  rewrite rev_app_distr, IH, map_app, concat_app. cbn [map concat].
  now rewrite app_nil_r.
Qed.

Lemma map_rev_rev {B : Type} (segs : list (list B)) :
  map (@rev _) (map (@rev _) segs) = segs.
Proof.
  rewrite map_map. rewrite <- (map_id segs) at 2.
  apply map_ext. intros s. apply rev_involutive.
Qed.

Lemma rev_short {B : Type} (s : list B) : (length s <= 1)%nat -> rev s = s.
Proof. destruct s as [|a [|b s]]; cbn; trivial; lia. Qed.

Lemma reverse_whole (x : ndarray A) (ch : string) :
  SampleArray x ch ->
  exists y : ndarray A,
    reverse x ch 1 = ([], Return (Some y)) /\
    SampleArray y ch /\
    frames y = rev (frames x).
Proof.
  intros Hx.
  assert (Hmod : Z.of_nat (len x) mod 1 = 0) by apply Z.mod_1_r.
  destruct (reverse_frames Hx Z.lt_0_1 Hmod) as (y & Hrun & Hy & Hframes).
  exists y. repeat split; trivial. rewrite Hframes.
  unfold segments. rewrite Z.div_1_r, Nat2Z.id.
  change (Z.to_nat 1) with 1%nat. cbn [chunks map concat].
  now rewrite firstn_all, app_nil_r.
Qed.

Lemma segments_rev {B : Type} (l : list B) (n : Z) :
  0 < n -> Z.of_nat (length l) mod n = 0 ->
  segments (rev l) n = map (@rev _) (rev (segments l n)).
Proof.
  intros Hn Hmod. destruct (segments_spec l Hn Hmod) as (Hk & Heach & Hcat).
  unfold segments at 1. rewrite length_rev.
  rewrite <- Hcat at 2. rewrite rev_concat_blocks.
  replace (Z.to_nat n) with (length (map (@rev _) (rev (segments l n))))
    by now rewrite length_map, length_rev.
  apply chunks_of_concat.
  apply Forall_forall. intros s Hin.
  apply in_map_iff in Hin. destruct Hin as (s' & <- & Hin).
  apply in_rev in Hin. rewrite length_rev.
  now apply (proj1 (Forall_forall _ _) Heach).
Qed.

End ReverseFrames.

(** X8. [reverse] neither drops nor repeats nor alters a frame: when it
    returns an array, the frames of the result are a rearrangement of the
    frames of the input, so their number is the same. *)
Theorem reverse_permutes_frames (A : Type) (x : ndarray A) (ch : string) (n : Z) :
  SampleArray x ch -> 0 < n -> Z.of_nat (len x) mod n = 0 ->
  exists y : ndarray A,
    reverse x ch n = ([], Return (Some y)) /\
    Permutation (frames y) (frames x) /\
    len y = len x.
Proof.
  intros Hx Hn Hmod.
  destruct (reverse_frames Hx Hn Hmod) as (y & Hrun & Hy & Hframes).
  assert (Hmod' : Z.of_nat (length (frames x)) mod n = 0)
    by now rewrite frames_length.
  destruct (segments_spec (frames x) Hn Hmod') as (_ & _ & Hcat).
  assert (Hperm : Permutation (frames y) (frames x)).
  { rewrite Hframes. rewrite <- Hcat at 2. apply concat_map_rev_perm. }
  exists y. repeat split; trivial.
  rewrite <- !frames_length. now apply Permutation_length.
Qed.

Lemma reverse_permutes_frames_witness :
  exists y : ndarray Z,
    reverse (Arr2 2 [[1; 2]; [3; 4]; [5; 6]; [7; 8]]) "2" 2 = ([], Return (Some y)) /\
    Permutation (frames y) (frames (Arr2 2 [[1; 2]; [3; 4]; [5; 6]; [7; 8]])) /\
    len y = len (Arr2 2 [[1; 2]; [3; 4]; [5; 6]; [7; 8]]).
Proof.
  apply (@reverse_permutes_frames Z (Arr2 2 [[1; 2]; [3; 4]; [5; 6]; [7; 8]]) "2" 2).
  - constructor. repeat constructor.
  - lia.
  - reflexivity.
Defined.

(** X9. With as many sections as there are frames, every section is one
    frame and [reverse] returns the array unchanged. *)
Theorem reverse_finest_is_identity (A : Type) (x : ndarray A) (ch : string) :
  SampleArray x ch -> (0 < len x)%nat ->
  reverse x ch (Z.of_nat (len x)) = ([], Return (Some x)).
Proof.
  intros Hx Hlen.
  assert (Hn : 0 < Z.of_nat (len x)) by lia.
  assert (Hmod : Z.of_nat (len x) mod Z.of_nat (len x) = 0) by (apply Z.mod_same; lia).
  destruct (reverse_frames Hx Hn Hmod) as (y & Hrun & Hy & Hframes).
  rewrite Hrun. do 3 f_equal. apply (frames_inj Hy Hx).
  rewrite Hframes.
  assert (Hmod' : Z.of_nat (length (frames x)) mod Z.of_nat (len x) = 0)
    by now rewrite frames_length.
  destruct (segments_spec (frames x) Hn Hmod') as (_ & Heach & Hcat).
  rewrite frames_length, Z.div_same in Heach by lia.
  rewrite <- Hcat at 2. f_equal.
  rewrite <- (map_id (segments (frames x) (Z.of_nat (len x)))) at 2.
  apply map_ext_in. intros s Hin. apply rev_short.
  rewrite (proj1 (Forall_forall _ _) Heach s Hin). cbn. lia.
Qed.

Lemma reverse_finest_is_identity_witness :
  reverse (Arr2 2 [[1; 2]; [3; 4]; [5; 6]]) "2"
          (Z.of_nat (len (Arr2 2 [[1; 2]; [3; 4]; [5; 6]])))
  = ([], Return (Some (Arr2 2 [[1; 2]; [3; 4]; [5; 6]]))).
Proof.
  apply (@reverse_finest_is_identity Z (Arr2 2 [[1; 2]; [3; 4]; [5; 6]]) "2").
  - constructor. repeat constructor.
  - cbn. lia.
Defined.

(** X10. Reversing the sections and reversing the whole array commute, and
    together they reverse the order of the sections and leave each section
    as it was. *)
Theorem reverse_sections_then_whole (A : Type) (x : ndarray A) (ch : string) (n : Z) :
  SampleArray x ch -> 0 < n -> Z.of_nat (len x) mod n = 0 ->
  exists y1 y2 z : ndarray A,
    reverse x ch n = ([], Return (Some y1)) /\
    reverse y1 ch 1 = ([], Return (Some z)) /\
    reverse x ch 1 = ([], Return (Some y2)) /\
    reverse y2 ch n = ([], Return (Some z)) /\
    frames z = concat (rev (segments (frames x) n)).
Proof.
  intros Hx Hn Hmod.
  assert (Hmod' : Z.of_nat (length (frames x)) mod n = 0)
    by now rewrite frames_length.
  destruct (reverse_frames Hx Hn Hmod) as (y1 & Hrun1 & Hy1 & Hf1).
  destruct (reverse_whole Hy1) as (z & Hrunz & Hz & Hfz).
  destruct (reverse_whole Hx) as (y2 & Hrun2 & Hy2 & Hf2).
  assert (Hlen2 : len y2 = len x).
  { now rewrite <- !frames_length, Hf2, length_rev. }
  assert (Hmod2 : Z.of_nat (len y2) mod n = 0) by now rewrite Hlen2.
  destruct (reverse_frames Hy2 Hn Hmod2) as (z' & Hrunz' & Hz' & Hfz').
  assert (Hz1 : frames z = concat (rev (segments (frames x) n))).
  { rewrite Hfz, Hf1, rev_concat_blocks, <- map_rev, map_rev_rev. reflexivity. }
  assert (Hz2 : frames z' = concat (rev (segments (frames x) n))).
  { rewrite Hfz', Hf2, segments_rev, map_rev_rev by assumption. reflexivity. }
  exists y1, y2, z. repeat split; trivial.
  rewrite Hrunz'. do 3 f_equal. apply (frames_inj Hz' Hz). congruence.
Qed.

Lemma reverse_sections_then_whole_witness :
  exists y1 y2 z : ndarray Z,
    reverse (Arr1 [1; 2; 3; 4; 5; 6]) "1" 3 = ([], Return (Some y1)) /\
    reverse y1 "1" 1 = ([], Return (Some z)) /\
    reverse (Arr1 [1; 2; 3; 4; 5; 6]) "1" 1 = ([], Return (Some y2)) /\
    reverse y2 "1" 3 = ([], Return (Some z)) /\
    frames z = concat (rev (segments (frames (Arr1 [1; 2; 3; 4; 5; 6])) 3)).
Proof.
  apply (@reverse_sections_then_whole Z (Arr1 [1; 2; 3; 4; 5; 6]) "1" 3).
  - constructor.
  - lia.
  - reflexivity.
Defined.

(** X11. The channel tag only decides the shape of what [reverse] returns.
    A flat array under a tag other than ['1'] comes back as a 2-D array
    with one row per section; and for any rectangular array, the result
    under the tag ['1'] is the flattened result under any other tag. *)
Theorem reverse_tag_only_reshapes (A : Type) (x : ndarray A) (ch : string) (n : Z) :
  rectangular x -> ch <> "1" -> 0 < n -> Z.of_nat (len x) mod n = 0 ->
  exists y : ndarray A,
    reverse x ch n = ([], Return (Some y)) /\
    reverse x "1" n = ([], Return (Some (Arr1 (ravel y)))) /\
    (forall xs, x = Arr1 xs ->
       y = Arr2 (Z.to_nat (Z.of_nat (length xs) / n))
                (map (@rev _) (segments xs n))).
Proof.
  intros Hrect Hch Hn Hmod. destruct x as [xs | c rows]; cbn [len rectangular] in *.
  - eexists. split; [now apply reverse_flat_untagged|].
    split; [now apply reverse_mono|].
    intros xs' [= <-]. reflexivity.
  - eexists. split; [now apply reverse_rows|].
    split; [now apply reverse_rows_tagged_mono|].
    intros xs' [=].
Qed.

Lemma reverse_tag_only_reshapes_witness :
  exists y : ndarray Z,
    reverse (Arr1 [1; 2; 3; 4; 5; 6]) "2" 2 = ([], Return (Some y)) /\
    reverse (Arr1 [1; 2; 3; 4; 5; 6]) "1" 2 = ([], Return (Some (Arr1 (ravel y)))) /\
    (forall xs, Arr1 [1; 2; 3; 4; 5; 6] = Arr1 xs ->
       y = Arr2 (Z.to_nat (Z.of_nat (length xs) / 2))
                (map (@rev _) (segments xs 2))).
Proof.
  apply (@reverse_tag_only_reshapes Z (Arr1 [1; 2; 3; 4; 5; 6]) "2" 2).
  - exact I.
  - discriminate.
  - lia.
  - reflexivity.
Defined.

(** ** [split]: other shapes, and [split] after [reverse] *)

Section SplitShapes.
Context {A : Type}.

Lemma split_flat_even (xs : list A) (ch name : string) :
  ch <> "1" -> Z.of_nat (length xs) mod 2 = 0 ->
  split (Arr1 xs) ch name
  = Return (Channels (Arr1 (firstn (length xs / 2) xs))
                     (Arr1 (skipn (length xs / 2) xs))).
Proof.
  intros Hch Hmod. unfold split.
  destruct (String.eqb_spec ch "1") as [->|_]; [contradiction|].
  cbn [np_hsplit]. rewrite np_split_ok by (trivial; lia).
  unfold segments. change (Z.to_nat 2) with 2%nat.
  replace (Z.to_nat (Z.of_nat (length xs) / 2)) with (length xs / 2)%nat
    by (change 2 with (Z.of_nat 2); now rewrite <- Nat2Z.inj_div, Nat2Z.id).
  cbn [chunks map bind getitem nth_error flatten_F].
  do 3 f_equal. apply firstn_all2. rewrite length_skipn.
  assert (H2 : (length xs mod 2 = 0)%nat).
  { apply Nat2Z.inj. now rewrite Nat2Z.inj_mod. }
  pose proof (Nat.div_mod_eq (length xs) 2). lia.
Qed.

Lemma split_flat_odd (xs : list A) (ch name : string) :
  ch <> "1" -> Z.of_nat (length xs) mod 2 <> 0 ->
  split (Arr1 xs) ch name = Raise "ValueError".
Proof.
  intros Hch Hmod. unfold split.
  destruct (String.eqb_spec ch "1") as [->|_]; [contradiction|].
  cbn [np_hsplit]. unfold np_split. cbn [len Z.eqb].
  destruct (Z.eqb_spec (Z.of_nat (length xs) mod 2) 0); [contradiction | reflexivity].
Qed.

Lemma split_odd_width (c : nat) (rows : list (list A)) (ch name : string) :
  ch <> "1" -> Z.of_nat c mod 2 <> 0 ->
  split (Arr2 c rows) ch name = Raise "ValueError".
Proof.
  intros Hch Hmod. unfold split.
  destruct (String.eqb_spec ch "1") as [->|_]; [contradiction|].
  cbn [np_hsplit]. unfold np_split_columns. cbn [Z.eqb].
  destruct (Z.eqb_spec (Z.of_nat c mod 2) 0); [contradiction | reflexivity].
Qed.

Variable f : list A -> list A.

Lemma flat_map_unit_length (l : list (list A)) :
  Forall (fun r => length (f r) = 1%nat) l -> length (flat_map f l) = length l.
Proof.
  induction 1 as [|r l Hr _ IH]; cbn [flat_map]; [reflexivity|].
  rewrite length_app, Hr, IH. reflexivity.
Qed.

Lemma firstn_flat_map_unit (m : nat) (l : list (list A)) :
  Forall (fun r => length (f r) = 1%nat) l ->
  firstn m (flat_map f l) = flat_map f (firstn m l).
Proof.
  intros Hl. revert m. induction Hl as [|r l Hr _ IH]; intros m.
  - now rewrite !firstn_nil.
  - destruct m as [|m]; [reflexivity|].
    change (firstn (S m) (f r ++ flat_map f l) = f r ++ flat_map f (firstn m l))%list.
    rewrite firstn_app, Hr, firstn_all2 by lia.
    replace (S m - 1)%nat with m by lia. now rewrite IH.
Qed.

Lemma skipn_flat_map_unit (m : nat) (l : list (list A)) :
  Forall (fun r => length (f r) = 1%nat) l ->
  skipn m (flat_map f l) = flat_map f (skipn m l).
Proof.
  intros Hl. revert m. induction Hl as [|r l Hr _ IH]; intros m.
  - now rewrite !skipn_nil.
  - destruct m as [|m]; [reflexivity|].
    change (skipn (S m) (f r ++ flat_map f l) = flat_map f (skipn m l))%list.
    rewrite skipn_app, Hr, skipn_all2 by lia.
    replace (S m - 1)%nat with m by lia. now rewrite IH.
Qed.

Lemma Forall_skipn_keep {C : Type} (P : C -> Prop) (m : nat) (l : list C) :
  Forall P l -> Forall P (skipn m l).
Proof.
  intros Hl. rewrite <- (firstn_skipn m l) in Hl.
  now apply Forall_app in Hl.
Qed.

Lemma chunks_flat_map_unit (each k : nat) (l : list (list A)) :
  Forall (fun r => length (f r) = 1%nat) l ->
  chunks each k (flat_map f l) = map (flat_map f) (chunks each k l).
Proof.
  revert l. induction k as [|k IH]; intros l Hl; [reflexivity|].
  cbn [chunks map].
  rewrite firstn_flat_map_unit, skipn_flat_map_unit by assumption.
  rewrite IH by now apply Forall_skipn_keep.
  reflexivity.
Qed.

Lemma rev_flat_map_unit (l : list (list A)) :
  Forall (fun r => length (f r) = 1%nat) l ->
  rev (flat_map f l) = flat_map f (rev l).
Proof.
  induction 1 as [|r l Hr _ IH]; [reflexivity|].
  cbn [flat_map rev]. rewrite rev_app_distr, IH, flat_map_app.
  cbn [flat_map]. rewrite app_nil_r, (rev_short (f r)) by lia. reflexivity.
Qed.

Lemma flat_map_sections_rev (segs : list (list (list A))) :
  Forall (fun r => length (f r) = 1%nat) (concat segs) ->
  concat (map (@rev _) (map (flat_map f) segs))
  = flat_map f (concat (map (@rev _) segs)).
Proof.
  induction segs as [|s segs IH]; intros Hall; [reflexivity|].
  cbn [concat map] in *. apply Forall_app in Hall as [Hs Hrest].
  rewrite flat_map_app, IH, rev_flat_map_unit by assumption. reflexivity.
Qed.

Lemma reverse_channel (rows : list (list A)) (n : Z) :
  Forall (fun r => length (f r) = 1%nat) rows ->
  0 < n -> Z.of_nat (length rows) mod n = 0 ->
  reverse (Arr1 (flat_map f rows)) "1" n
  = ([], Return (Some (Arr1 (flat_map f (concat (map (@rev _) (segments rows n))))))).
Proof.
  intros Hunit Hn Hmod.
  destruct (segments_spec rows Hn Hmod) as (_ & _ & Hcat).
  rewrite reverse_mono;
    [| assumption | now rewrite flat_map_unit_length].
  do 4 f_equal. unfold segments at 1.
  rewrite flat_map_unit_length, chunks_flat_map_unit by assumption.
  apply flat_map_sections_rev. fold (segments rows n). now rewrite Hcat.
Qed.

End SplitShapes.

(** X12. [split] on the shapes its callers do not send, under any tag other
    than ['1']: a flat array of even length comes back as its first half
    and its second half, not as alternating samples; a flat array of odd
    length, or a 2-D array with an odd number of columns, raises
    [ValueError] from [np.hsplit]. *)
Theorem split_other_shapes (A : Type) (ch name : string) :
  ch <> "1" ->
  (forall xs : list A, Z.of_nat (length xs) mod 2 = 0 ->
     split (Arr1 xs) ch name
     = Return (Channels (Arr1 (firstn (length xs / 2) xs))
                        (Arr1 (skipn (length xs / 2) xs))))
  /\ (forall xs : list A, Z.of_nat (length xs) mod 2 <> 0 ->
        split (Arr1 xs) ch name = Raise "ValueError")
  /\ (forall (c : nat) (rows : list (list A)), Z.of_nat c mod 2 <> 0 ->
        split (Arr2 c rows) ch name = Raise "ValueError").
Proof.
  intros Hch. split; [|split].
  - intros xs. now apply split_flat_even.
  - intros xs. now apply split_flat_odd.
  - intros c rows. now apply split_odd_width.
Qed.

Lemma split_other_shapes_witness :
  split (Arr1 [1; 2; 3; 4]) "2" "tone.wav"
  = Return (Channels (Arr1 [1; 2]) (Arr1 [3; 4]))
  /\ split (Arr1 [1; 2; 3]) "2" "tone.wav" = Raise "ValueError"
  /\ split (Arr2 3 [[1; 2; 3]]) "2" "tone.wav" = Raise "ValueError".
Proof.
  destruct (@split_other_shapes Z "2" "tone.wav") as (Heven & Hodd & Hwidth);
    [discriminate|].
  split; [|split].
  - apply (Heven [1; 2; 3; 4]). reflexivity.
  - apply (Hodd [1; 2; 3]). discriminate.
  - apply (Hwidth 3%nat [[1; 2; 3]]). discriminate.
Defined.

(** X13. [split] and [reverse] commute on stereo arrays: the channels of
    the reversed array are the channels of the array, each reversed as a
    mono array with the same subdivision. *)
Theorem split_after_reverse (A : Type) (x : ndarray A) (name : string) (n : Z) :
  SampleArray x "2" -> 0 < n -> Z.of_nat (len x) mod n = 0 ->
  exists (y : ndarray A) (L R L' R' : list A),
    reverse x "2" n = ([], Return (Some y)) /\
    split x "2" name = Return (Channels (Arr1 L) (Arr1 R)) /\
    split y "2" name = Return (Channels (Arr1 L') (Arr1 R')) /\
    reverse (Arr1 L) "1" n = ([], Return (Some (Arr1 L'))) /\
    reverse (Arr1 R) "1" n = ([], Return (Some (Arr1 R'))).
Proof.
  intros Hx Hn Hmod. inversion Hx as [|rows Hrows]; subst. cbn [len] in Hmod.
  destruct (segments_spec rows Hn Hmod) as (_ & _ & Hcat).
  assert (Hrows' : Forall (fun r : list A => length r = 2%nat)
                          (concat (map (@rev _) (segments rows n)))).
  { apply Forall_concat_rev. now rewrite Hcat. }
  exists (Arr2 2 (concat (map (@rev _) (segments rows n)))),
         (flat_map (firstn 1) rows), (flat_map (skipn 1) rows),
         (flat_map (firstn 1) (concat (map (@rev _) (segments rows n)))),
         (flat_map (skipn 1) (concat (map (@rev _) (segments rows n)))).
  split; [apply reverse_rows; trivial; discriminate|].
  split; [apply split_rows; trivial; discriminate|].
  split; [apply split_rows; trivial; discriminate|].
  split; apply reverse_channel; trivial;
    (eapply Forall_impl; [|exact Hrows]); cbn beta; intros r Hr.
  - rewrite length_firstn. lia.
  - rewrite length_skipn. lia.
Qed.

Lemma split_after_reverse_witness :
  exists (y : ndarray Z) (L R L' R' : list Z),
    reverse (Arr2 2 [[1; 2]; [3; 4]; [5; 6]; [7; 8]]) "2" 2 = ([], Return (Some y)) /\
    split (Arr2 2 [[1; 2]; [3; 4]; [5; 6]; [7; 8]]) "2" "tone.wav"
    = Return (Channels (Arr1 L) (Arr1 R)) /\
    split y "2" "tone.wav" = Return (Channels (Arr1 L') (Arr1 R')) /\
    reverse (Arr1 L) "1" 2 = ([], Return (Some (Arr1 L'))) /\
    reverse (Arr1 R) "1" 2 = ([], Return (Some (Arr1 R'))).
Proof.
  apply (@split_after_reverse Z (Arr2 2 [[1; 2]; [3; 4]; [5; 6]; [7; 8]]) "tone.wav" 2).
  - constructor. repeat constructor.
  - lia.
  - reflexivity.
Defined.

(** ** [invert]: multiplying by [-1] is exact *)

Section InvertExact.

Lemma digits2_pos_unique (p : positive) (d : Z) :
  2 ^ (d - 1) <= Zpos p < 2 ^ d -> Zpos (digits2_pos p) = d.
Proof.
  intros [Hlo Hhi]. pose proof (digits2_pos_bounds p) as [Hlo' Hhi'].
  set (d' := Zpos (digits2_pos p)) in *.
  assert (Hd' : 1 <= d') by (unfold d'; lia).
  assert (Hd : 1 <= d).
  { destruct (Z.le_gt_cases 1 d) as [|Hsmall]; [trivial|]. exfalso.
    assert (2 ^ d <= 2 ^ 0) by (apply Z.pow_le_mono_r; lia).
    change (2 ^ 0) with 1 in *. lia. }
  assert (H1 : d' - 1 < d).
  { apply (Z.pow_lt_mono_r_iff 2); lia. }
  assert (H2 : d - 1 < d').
  { apply (Z.pow_lt_mono_r_iff 2); lia. }
  lia.
Qed.

Lemma round_times_pow2_52 (sx : bool) (m c : positive) (e : Z) :
  Zpos c = 2 ^ 52 ->
  bounded F64.prec F64.emax m e = true ->
  binary_round_aux F64.prec F64.emax sx (Zpos (m * c)) (e + -52) loc_Exact
  = S754_finite sx m e.
Proof.
  intros Hc Hb. unfold bounded in Hb. apply andb_prop in Hb as [Hcanon Hmax].
  unfold canonical_mantissa in Hcanon. apply Z.eqb_eq in Hcanon.
  apply Z.leb_le in Hmax.
  assert (Hq : Zpos (m * c) = Zpos m * 2 ^ 52) by (rewrite Pos2Z.inj_mul, Hc; reflexivity).
  assert (Hpow : 0 < 2 ^ 52) by (apply Z.pow_pos_nonneg; lia).
  assert (Hdig : Zdigits2 (Zpos (m * c)) = Zpos (digits2_pos m) + 52).
  { cbn [Zdigits2]. apply digits2_pos_unique. rewrite Hq.
    pose proof (digits2_pos_bounds m) as [Hlo Hhi].
    replace (Zpos (digits2_pos m) + 52 - 1) with (Zpos (digits2_pos m) - 1 + 52) by lia.
    rewrite !Z.pow_add_r by lia. split.
    - apply Z.mul_le_mono_nonneg_r; lia.
    - apply Z.mul_lt_mono_pos_r; lia. }
  unfold binary_round_aux, shr_fexp. rewrite Hdig.
  replace (Zpos (digits2_pos m) + 52 + (e + -52)) with (Zpos (digits2_pos m) + e) by lia.
  rewrite Hcanon.
  replace (e - (e + -52)) with 52 by lia.
  destruct (shr_spec (e + -52) 52 loc_Exact (q := Zpos (m * c)) ltac:(lia))
    as (mrs & -> & Hm & _ & Hexact).
  change (Z.max 52 0) with 52 in *.
  rewrite Hq, Z.div_mul in Hm by lia.
  rewrite Hm, Hexact; [|reflexivity | rewrite Hq; apply Z.mod_mul; lia].
  cbn [round_nearest_even Zdigits2].
  replace (e + -52 + 52) with e by lia.
  rewrite Hcanon, Z.sub_diag.
  destruct (shr_spec e 0 loc_Exact (q := Zpos m) ltac:(lia))
    as (mrs2 & -> & Hm2 & _ & _).
  change (Z.max 0 0) with 0 in *. rewrite Z.div_1_r in Hm2.
  rewrite Hm2, Z.add_0_r.
  destruct (Z.leb_spec e (F64.emax - F64.prec)) as [_|Hgt]; [reflexivity | lia].
Qed.

Lemma minus_one : F64.of_Z (-1) = S754_finite true 4503599627370496 (-52).
Proof. vm_compute. reflexivity. Qed.

(** [v * -1] on a double: the sign bit flips, nothing is rounded. *)
Lemma mul_minus_one (v : F64.float) :
  valid_binary F64.prec F64.emax v = true ->
  F64.mul v (F64.of_Z (-1)) = SFopp v.
Proof.
  intros Hv. rewrite minus_one. destruct v as [s | s | | s m e]; cbn [F64.mul SFmul SFopp].
  - now rewrite xorb_true_r.
  - now rewrite xorb_true_r.
  - reflexivity.
  - unfold F64.mul, SFmul. rewrite xorb_true_r.
    apply round_times_pow2_52; [reflexivity | exact Hv].
Qed.

End InvertExact.

(** ** Elementwise operations pass through [reverse], [split] and [trim] *)

Section Elementwise.
Context {B C : Type}.
Variable f : B -> C.

Lemma len_amap (x : ndarray B) : len (amap f x) = len x.
Proof. destruct x; cbn; now rewrite length_map. Qed.

Lemma size_amap (x : ndarray B) : size (amap f x) = size x.
Proof. destruct x; cbn; now rewrite length_map. Qed.

Lemma amap_ext_ravel (g : B -> C) (x : ndarray B) :
  Forall (fun v => f v = g v) (ravel x) -> amap f x = amap g x.
Proof.
  destruct x as [xs | c rows]; cbn [ravel amap]; intros Hall; f_equal.
  - apply map_ext_in. intros v Hv. exact (proj1 (Forall_forall _ _) Hall v Hv).
  - apply Forall_concat in Hall. apply map_ext_in. intros r Hr.
    apply map_ext_in. intros v Hv.
    pose proof (proj1 (Forall_forall _ _) Hall r Hr) as Hrow.
    exact (proj1 (Forall_forall _ _) Hrow v Hv).
Qed.

Lemma sections_of_map {D E : Type} (g : D -> E) (l : list D) (k each : nat) :
  sections_of (map g l) k each = map (map g) (sections_of l k each).
Proof.
  unfold sections_of. rewrite map_map. apply map_ext. intros i.
  apply getslice_map.
Qed.

Lemma np_split_amap (x : ndarray B) (n : Z) :
  np_split (amap f x) n = (parts <- np_split x n ;; Return (map (amap f) parts)).
Proof.
  unfold np_split. rewrite len_amap.
  destruct (n =? 0); [reflexivity|].
  destruct (negb _); [reflexivity|].
  destruct (n <=? 0); [reflexivity|].
  cbn [bind]. f_equal. destruct x as [xs | c rows]; cbn [amap].
  - now rewrite sections_of_map, !map_map.
  - now rewrite sections_of_map, !map_map.
Qed.

Lemma flip0_amap (x : ndarray B) : flip0 (amap f x) = amap f (flip0 x).
Proof. destruct x; cbn; now rewrite map_rev. Qed.

Lemma rows_2d_amap (x : ndarray B) : rows_2d (amap f x) = map (map f) (rows_2d x).
Proof. destruct x; reflexivity. Qed.

Lemma ncols_2d_amap (x : ndarray B) : ncols_2d (amap f x) = ncols_2d x.
Proof. destruct x; cbn; [apply length_map | reflexivity]. Qed.

Lemma np_row_stack_amap (items : list (ndarray B)) :
  np_row_stack (map (amap f) items)
  = (y <- np_row_stack items ;; Return (amap f y)).
Proof.
  destruct items as [|a items]; [reflexivity|].
  cbn [map np_row_stack bind amap]. rewrite ncols_2d_amap. do 2 f_equal.
  change (flat_map (@rows_2d C) (map (amap f) (a :: items))
          = map (map f) (flat_map (@rows_2d B) (a :: items))).
  induction (a :: items) as [|b l IH]; [reflexivity|].
  cbn [map flat_map]. now rewrite map_app, IH, rows_2d_amap.
Qed.

Lemma reshape1_amap (x : ndarray B) (n : nat) :
  reshape1 (amap f x) n = (y <- reshape1 x n ;; Return (amap f y)).
Proof.
  unfold reshape1. rewrite ravel_amap, length_map.
  destruct (_ =? _)%nat; reflexivity.
Qed.

(** [reverse] moves samples and never looks at them. *)
Lemma reverse_amap (x : ndarray B) (ch : string) (n : Z) :
  reverse (amap f x) ch n
  = (fst (reverse x ch n),
     r <- snd (reverse x ch n) ;; Return (option_map (amap f) r)).
Proof.
  unfold reverse. rewrite len_amap, size_amap.
  destruct (n =? 0); [reflexivity|].
  destruct (negb _); [reflexivity|].
  cbn [fst snd]. f_equal. rewrite np_split_amap.
  destruct (np_split x n) as [parts | e]; [|reflexivity]. cbn [bind].
  unfold np_flip_axis1. rewrite map_map.
  rewrite (map_ext _ (fun a => amap f (flip0 a)) flip0_amap).
  rewrite <- (map_map flip0 (amap f)), np_row_stack_amap.
  destruct (np_row_stack (map flip0 parts)) as [y | e]; [|reflexivity]. cbn [bind].
  destruct (ch =? "1")%string; [|reflexivity].
  rewrite reshape1_amap. now destruct (reshape1 y (size x)).
Qed.

Lemma flatten_F_amap (x : ndarray B) : flatten_F (amap f x) = map f (flatten_F x).
Proof.
  destruct x as [xs | c rows]; [reflexivity|]. cbn [flatten_F amap].
  unfold columns. rewrite concat_map, map_map. f_equal.
  apply map_ext. intros j. apply column_map.
Qed.

Lemma np_hsplit_amap (x : ndarray B) (n : Z) :
  np_hsplit (amap f x) n = (parts <- np_hsplit x n ;; Return (map (amap f) parts)).
Proof.
  destruct x as [xs | c rows]; [apply (np_split_amap (Arr1 xs))|].
  cbn [np_hsplit amap]. unfold np_split_columns.
  destruct (n =? 0); [reflexivity|].
  destruct (negb _); [reflexivity|].
  destruct (n <=? 0); [reflexivity|].
  cbn [bind]. f_equal. rewrite map_map. apply map_ext. intros i.
  cbn [amap]. f_equal. rewrite !map_map. apply map_ext. intros r.
  unfold slice1. apply getslice_map.
Qed.

Lemma getitem_map {D E : Type} (g : D -> E) (l : list D) (i : nat) :
  getitem (map g l) i = (v <- getitem l i ;; Return (g v)).
Proof. unfold getitem. rewrite nth_error_map. now destruct (nth_error l i). Qed.

(** [split] moves samples and never looks at them. *)
Lemma split_amap (x : ndarray B) (ch name : string) :
  split (amap f x) ch name
  = (r <- split x ch name ;;
     Return match r with
            | Message t => Message t
            | Channels l r => Channels (amap f l) (amap f r)
            end).
Proof.
  unfold split. destruct (ch =? "1")%string; [reflexivity|].
  rewrite np_hsplit_amap. destruct (np_hsplit x 2) as [parts | e]; [|reflexivity].
  cbn [bind]. rewrite !getitem_map.
  destruct (getitem parts 0) as [a0 | e]; [|reflexivity]. cbn [bind].
  destruct (getitem parts 1) as [a1 | e]; [|reflexivity]. cbn [bind amap].
  now rewrite !flatten_F_amap.
Qed.

End Elementwise.

Section TrimElementwise.
Variable f : F64.float -> F64.float.

Lemma slice0_amap (x : ndarray F64.float) (start stop : Z) :
  slice0 (amap f x) start stop = amap f (slice0 x start stop).
Proof. destruct x; cbn; now rewrite getslice_map. Qed.

Lemma amap_amap {D E G : Type} (g : D -> E) (h : E -> G) (x : ndarray D) :
  amap h (amap g x) = amap (fun v => h (g v)) x.
Proof.
  destruct x as [xs | c rows]; cbn [amap]; f_equal; rewrite map_map; [reflexivity|].
  apply map_ext. intros r. apply map_map.
Qed.

Lemma amap_id {D : Type} (x : ndarray D) : amap (fun v => v) x = x.
Proof.
  destruct x as [xs | c rows]; cbn [amap]; f_equal; [apply map_id|].
  rewrite <- (map_id rows) at 2. apply map_ext. intros r. apply map_id.
Qed.

(** An operation that keeps every sample on its side of the threshold
    can be applied before or after [trim]. *)
Lemma trim_amap (x : ndarray F64.float) :
  Forall (fun v => mask_value (f v) = mask_value v) (ravel x) ->
  trim (amap f x) = (y <- trim x ;; Return (amap f y)).
Proof.
  intros Hkeep. unfold trim.
  assert (Hmask : mask (amap f x) = mask x).
  { unfold mask. rewrite amap_amap. now apply amap_ext_ravel. }
  rewrite Hmask.
  assert (Hlast : last_nonzero (amap f x) 0 (mask x) (-1)
                  = last_nonzero x 0 (mask x) (-1)).
  { unfold last_nonzero. destruct x; cbn [amap shape]; now rewrite ?length_map. }
  rewrite Hlast.
  change (first_nonzero (amap f x) 0 (mask x) (-1))
    with (first_nonzero x 0 (mask x) (-1)).
  destruct (first_nonzero x 0 (mask x) (-1)) as [first | e]; [|reflexivity]. cbn [bind].
  destruct (np_amin first) as [start | e]; [|reflexivity]. cbn [bind].
  destruct (last_nonzero x 0 (mask x) (-1)) as [last | e]; [|reflexivity]. cbn [bind].
  destruct (np_amax last) as [stop | e]; [|reflexivity]. cbn [bind].
  now rewrite slice0_amap.
Qed.

End TrimElementwise.

Section InvertArrays.

Lemma valid_opp (v : F64.float) :
  valid_binary F64.prec F64.emax v = true ->
  valid_binary F64.prec F64.emax (SFopp v) = true.
Proof. now destruct v. Qed.

Lemma opp_involutive (v : F64.float) : SFopp (SFopp v) = v.
Proof. destruct v; cbn; now rewrite ?negb_involutive. Qed.

Lemma mask_value_opp (v : F64.float) : mask_value (SFopp v) = mask_value v.
Proof. now destruct v. Qed.

Lemma invert_opp (x : ndarray F64.float) :
  Forall (fun v => valid_binary F64.prec F64.emax v = true) (ravel x) ->
  invert x = amap SFopp x.
Proof.
  intros Hv. unfold invert. apply amap_ext_ravel.
  eapply Forall_impl; [|exact Hv]. intros v. apply mul_minus_one.
Qed.

End InvertArrays.

(** X14. [invert] flips the sign bit of every sample and changes nothing
    else: on doubles (infinities and NaN included) [array * -1] is exact.
    Inverting twice gives the array back. *)
Theorem invert_exact (x : ndarray F64.float) :
  Forall (fun v => valid_binary F64.prec F64.emax v = true) (ravel x) ->
  invert x = amap SFopp x /\ invert (invert x) = x.
Proof.
  intros Hv. split; [now apply invert_opp|].
  rewrite (invert_opp x Hv), invert_opp.
  - rewrite amap_amap. transitivity (amap (fun v : F64.float => v) x); [|apply amap_id].
    apply amap_ext_ravel. apply Forall_forall. intros v _. apply opp_involutive.
  - rewrite ravel_amap. apply Forall_map.
    eapply Forall_impl; [|exact Hv]. intros v. apply valid_opp.
Qed.

Lemma invert_exact_witness :
  invert (Arr2 2 [[F64.ldexp 1 (-1); F64.of_Z (-1)]; [F64.of_Z 0; F64.epsilon]])
  = amap SFopp (Arr2 2 [[F64.ldexp 1 (-1); F64.of_Z (-1)]; [F64.of_Z 0; F64.epsilon]])
  /\ invert (invert (Arr2 2 [[F64.ldexp 1 (-1); F64.of_Z (-1)]; [F64.of_Z 0; F64.epsilon]]))
     = Arr2 2 [[F64.ldexp 1 (-1); F64.of_Z (-1)]; [F64.of_Z 0; F64.epsilon]].
Proof.
  apply (invert_exact
           (Arr2 2 [[F64.ldexp 1 (-1); F64.of_Z (-1)]; [F64.of_Z 0; F64.epsilon]])).
  repeat constructor.
Defined.

(** X15. [trim] and [invert] commute: inverting the polarity does not move
    the boundaries of the silence, so trimming the inverted array gives
    the inverted trimmed array, and fails where trimming the array
    fails. *)
Theorem trim_invert (x : ndarray F64.float) :
  Forall (fun v => valid_binary F64.prec F64.emax v = true) (ravel x) ->
  trim (invert x) = (y <- trim x ;; Return (invert y)).
Proof.
  intros Hv. unfold invert. apply trim_amap.
  eapply Forall_impl; [|exact Hv]. cbn beta. intros v Hvalid.
  rewrite (mul_minus_one v Hvalid). apply mask_value_opp.
Qed.

Lemma trim_invert_witness :
  trim (invert (Arr1 [F64.of_Z 0; F64.ldexp 1 (-1); F64.of_Z (-1); F64.of_Z 0]))
  = (y <- trim (Arr1 [F64.of_Z 0; F64.ldexp 1 (-1); F64.of_Z (-1); F64.of_Z 0]) ;;
     Return (invert y)).
Proof.
  apply (trim_invert (Arr1 [F64.of_Z 0; F64.ldexp 1 (-1); F64.of_Z (-1); F64.of_Z 0])).
  repeat constructor.
Defined.

(** X16. [reverse] and [split] only move samples, so [invert] can be
    applied before or after either of them: the console output and the
    error are the same, and the arrays returned are the inverted ones. *)
Theorem invert_commutes (x : ndarray F64.float) (ch name : string) (n : Z) :
  reverse (invert x) ch n
  = (fst (reverse x ch n),
     r <- snd (reverse x ch n) ;; Return (option_map invert r))
  /\ split (invert x) ch name
     = (r <- split x ch name ;;
        Return match r with
               | Message t => Message t
               | Channels l r => Channels (invert l) (invert r)
               end).
Proof. split; [apply reverse_amap | apply split_amap]. Qed.

(** ** [trim] after [reverse] *)

Section TrimReverse.

Lemma nchannels_tag (x y : ndarray F64.float) (ch : string) :
  SampleArray x ch -> SampleArray y ch -> nchannels y = nchannels x.
Proof. intros Hx Hy. destruct Hx; inversion Hy; reflexivity. Qed.

Lemma every_channel_active_rev (x r : ndarray F64.float) (ch : string) :
  SampleArray x ch -> SampleArray r ch -> frames r = rev (frames x) ->
  every_channel_active x -> every_channel_active r.
Proof.
  intros Hx Hr Hframes Hact j Hj. rewrite (nchannels_tag Hx Hr) in Hj.
  destruct (Hact j Hj) as (f & v & Hin & Hrest). exists f, v.
  split; [|exact Hrest]. rewrite Hframes. now apply in_rev in Hin.
Qed.

Lemma trim_spec_rev (x r : ndarray F64.float) :
  existsb (fun b : bool => b) (map frame_active (frames x)) = true ->
  frames r = rev (frames x) ->
  frames (trim_spec r) = rev (frames (trim_spec x)).
Proof.
  intros Hany Hframes.
  assert (Hany' : existsb (fun b : bool => b) (map frame_active (frames r)) = true).
  { now rewrite Hframes, map_rev, any_true_rev. }
  rewrite (trim_spec_frames _ Hany), (trim_spec_frames _ Hany').
  pose proof (first_le_last _ Hany) as Hfl. rewrite length_map in Hfl.
  rewrite Hframes, map_rev, rev_involutive, length_rev.
  set (fs := frames x) in *.
  set (e := index_of true (map frame_active fs)) in *.
  set (e' := index_of true (rev (map frame_active fs))) in *.
  rewrite rev_crop by lia.
  replace (length fs - e' - e)%nat with (length fs - e - e')%nat by lia.
  do 2 f_equal. lia.
Qed.

End TrimReverse.

(** X17. On a sample array in which every channel has a non-silent sample,
    [trim] commutes with reversing the whole array: trimming the reversed
    array gives the reversed trimmed array. *)
Theorem trim_reverse_whole (x : ndarray F64.float) (ch : string) :
  SampleArray x ch -> every_channel_active x ->
  exists t r t' : ndarray F64.float,
    trim x = Return t
    /\ reverse x ch 1 = ([], Return (Some r))
    /\ trim r = Return t'
    /\ reverse t ch 1 = ([], Return (Some t')).
Proof.
  intros Hx Hact.
  destruct (trim_active_result Hx Hact) as (Hrun & Ht & _).
  destruct (reverse_whole Hx) as (r & Hrev & Hr & Hframes).
  pose proof (every_channel_active_rev Hx Hr Hframes Hact) as Hactr.
  destruct (reverse_whole Ht) as (t' & Hrev' & Ht' & Hframes').
  exists (trim_spec x), r, t'. repeat split; trivial.
  rewrite (trim_meets_spec Hr Hactr). f_equal.
  apply (frames_inj (slice0_sample_array _ _ Hr) Ht').
  rewrite Hframes'. apply trim_spec_rev; [|exact Hframes].
  exact (active_any Hx Hact).
Qed.

Lemma trim_reverse_whole_witness :
  exists t r t' : ndarray F64.float,
    trim (Arr2 2 [[F64.of_Z 0; F64.of_Z 0]; [F64.of_Z 1; F64.of_Z 0];
                  [F64.of_Z 0; F64.of_Z 2]; [F64.of_Z 0; F64.of_Z 0]]) = Return t
    /\ reverse (Arr2 2 [[F64.of_Z 0; F64.of_Z 0]; [F64.of_Z 1; F64.of_Z 0];
                        [F64.of_Z 0; F64.of_Z 2]; [F64.of_Z 0; F64.of_Z 0]]) "2" 1
       = ([], Return (Some r))
    /\ trim r = Return t'
    /\ reverse t "2" 1 = ([], Return (Some t')).
Proof.
  apply (@trim_reverse_whole _ "2"); [|exact padded_stereo_active].
  constructor. repeat constructor.
Defined.

(** ** [normalize] in doubles *)

(** X18. [normalize] as the specification describes it, run on doubles:
    for an array of finite doubles whose peak is not zero, the division
    by the peak is applied, the peak of the result is exactly 1.0 (the
    rounding of [x / peak] never passes 1), and every sample keeps its
    sign bit. *)
Theorem normalize_doubles_unit_peak (x : ndarray F64.float) :
  Forall (fun v => F64.finite v = true) (ravel x) ->
  F64.eqb (peak x) (F64.of_Z 0) = false ->
  exists y : ndarray F64.float,
    normalize x = (y, true)
    /\ y = amap (fun v => F64.div v (peak x)) x
    /\ peak y = F64.one
    /\ Forall (fun v => F64.sign_bit (F64.div v (peak x)) = F64.sign_bit v) (ravel x).
Proof.
  intros Hfin Hnz. destruct (normalize_doubles x Hfin Hnz) as (Hrun & Hpeak & Hsign).
  exists (amap (fun v => F64.div v (peak x)) x). auto.
Qed.

Lemma normalize_doubles_unit_peak_witness :
  exists y : ndarray F64.float,
    normalize (Arr2 2 [[F64.of_Z 3; F64.of_Z (-7)]; [F64.ldexp 1 (-1); F64.of_Z 0]])
    = (y, true)
    /\ y = amap (fun v => F64.div v
                    (peak (Arr2 2 [[F64.of_Z 3; F64.of_Z (-7)];
                                   [F64.ldexp 1 (-1); F64.of_Z 0]])))
                (Arr2 2 [[F64.of_Z 3; F64.of_Z (-7)]; [F64.ldexp 1 (-1); F64.of_Z 0]])
    /\ peak y = F64.one
    /\ Forall (fun v => F64.sign_bit
                          (F64.div v
                             (peak (Arr2 2 [[F64.of_Z 3; F64.of_Z (-7)];
                                            [F64.ldexp 1 (-1); F64.of_Z 0]])))
                        = F64.sign_bit v)
              (ravel (Arr2 2 [[F64.of_Z 3; F64.of_Z (-7)]; [F64.ldexp 1 (-1); F64.of_Z 0]])).
Proof.
  apply (normalize_doubles_unit_peak
           (Arr2 2 [[F64.of_Z 3; F64.of_Z (-7)]; [F64.ldexp 1 (-1); F64.of_Z 0]])).
  - repeat constructor.
  - vm_compute. reflexivity.
Defined.

(** ** The boundary searches: axes that do not exist, arrays with no frame *)

(** X19. With an axis the array does not have, [first_nonzero] raises
    [AxisError] (from [mask.any]) and [last_nonzero] raises [IndexError]
    (from [array.shape[axis]], which it evaluates first). On an array with
    no frame, both searches along axis 0 and [trim] raise [ValueError]:
    [argmax] has nothing to reduce over. *)
Theorem boundary_search_errors (x : ndarray F64.float) (inv : Z) :
  (forall axis : Z,
      axis < - ndim x \/ ndim x <= axis ->
      first_nonzero x axis (mask x) inv = Raise "AxisError"
      /\ last_nonzero x axis (mask x) inv = Raise "IndexError")
  /\ (len x = 0%nat ->
      first_nonzero x 0 (mask x) inv = Raise "ValueError"
      /\ last_nonzero x 0 (mask x) inv = Raise "ValueError"
      /\ trim x = Raise "ValueError").
Proof.
  split.
  - intros axis Haxis.
    assert (Hnd : ndim (mask x) = ndim x) by now destruct x.
    split.
    + unfold first_nonzero, np_any, lanes, normalize_axis. rewrite Hnd.
      destruct (Z.ltb_spec axis (- ndim x)); [reflexivity|].
      destruct (Z.leb_spec (ndim x) axis); [reflexivity | lia].
    + unfold last_nonzero, shape. destruct x as [xs | c rows]; cbn [ndim] in Haxis.
      * destruct (Z.eqb_spec axis 0); [lia|]. destruct (Z.eqb_spec axis (-1)); [lia|].
        reflexivity.
      * destruct (Z.eqb_spec axis 0); [lia|]. destruct (Z.eqb_spec axis (-2)); [lia|].
        destruct (Z.eqb_spec axis 1); [lia|]. destruct (Z.eqb_spec axis (-1)); [lia|].
        reflexivity.
  - intros Hlen. destruct x as [[|v xs] | c [|r rows]]; try discriminate Hlen.
    + repeat split.
    + assert (Hfirst : first_nonzero (Arr2 c []) 0 (mask (Arr2 c [])) inv
                       = Raise "ValueError") by reflexivity.
      assert (Hlast : last_nonzero (Arr2 c []) 0 (mask (Arr2 c [])) inv
                      = Raise "ValueError") by reflexivity.
      repeat split; trivial.
Qed.

Lemma boundary_search_errors_witness :
  (first_nonzero (Arr2 2 [[F64.of_Z 0; F64.of_Z 1]]) 2
                 (mask (Arr2 2 [[F64.of_Z 0; F64.of_Z 1]])) (-1)
   = Raise "AxisError"
   /\ last_nonzero (Arr2 2 [[F64.of_Z 0; F64.of_Z 1]]) 2
                   (mask (Arr2 2 [[F64.of_Z 0; F64.of_Z 1]])) (-1)
      = Raise "IndexError")
  /\ (first_nonzero (Arr2 2 []) 0 (mask (Arr2 2 [])) (-1) = Raise "ValueError"
      /\ last_nonzero (Arr2 2 []) 0 (mask (Arr2 2 [])) (-1) = Raise "ValueError"
      /\ trim (Arr2 2 []) = Raise "ValueError").
Proof.
  split.
  - apply (boundary_search_errors (Arr2 2 [[F64.of_Z 0; F64.of_Z 1]]) (-1)).
    right. cbn. lia.
  - apply (boundary_search_errors (Arr2 2 []) (-1)). reflexivity.
Defined.

(** ** Sums and halves of fixed-point doubles are exact *)

Section FixedPoint.



















End FixedPoint.


